(** * Metronome: the beat scheduler of [src/App.tsx]

    A shallow embedding of the React component [Metronome]: its hook
    state, its refs, the browser's timer table and speech queue, the
    scheduler's catch-up loop and the start/stop effect, followed by the
    properties of the beat train they produce.

    Conventions of the embedding.
    - A JavaScript [number] is [NaN], an infinity or a finite value; finite
      values are exact rationals (the sign of zero is not represented).
      The component's sums and quotients are rounded to doubles by the
      engine: statements are phrased with the component's own operations
      and tests ([add], [div], [lt]) wherever rounding could decide them,
      and what rounding does to the deadlines is shown on doubles in
      [F64].
    - The events of the step relation carry what a handler receives;
      [delivered] singles out what the page's controls can send.
    - Every handler runs to completion together with the re-render and the
      effects it triggers: one UI event is one [step].
    - [audioContext.currentTime] is an input of each step (the argument
      [now]); it is read once per step.
    - The [while] loop of [scheduler] is iterated with fuel; [None] means
      the fuel ran out.
    - The Web Audio and Web Speech interfaces exist and do not throw.
      Unmounting is not an event of the step relation; what it does is
      [unmount]. *)

From Stdlib Require Import ZArith QArith Qround Lia Lqa.
From Stdlib Require PrimFloat FloatOps SpecFloat Uint63.
From stdpp Require Import base option list gmap.

Open Scope Q_scope.

(** ** JavaScript numbers *)

Module JS.

Inductive number : Type :=
  | NaN
  | PosInf
  | NegInf
  | Fin (q : Q).

Definition Qltb (a b : Q) : bool := negb (Qle_bool b a).

(** [a < b] of JavaScript: false as soon as one side is [NaN]. *)
Definition lt (a b : number) : bool :=
  match a, b with
  | NaN, _ | _, NaN => false
  | Fin x, Fin y => Qltb x y
  | NegInf, NegInf => false
  | NegInf, _ => true
  | _, NegInf => false
  | PosInf, _ => false
  | Fin _, PosInf => true
  end.

(** [Object.is] on numbers, the comparison React uses for state updates
    and dependency arrays: [NaN] is the same value as [NaN]. *)
Definition same (a b : number) : bool :=
  match a, b with
  | NaN, NaN | PosInf, PosInf | NegInf, NegInf => true
  | Fin x, Fin y => Qeq_bool x y
  | _, _ => false
  end.

Definition add (a b : number) : number :=
  match a, b with
  | NaN, _ | _, NaN => NaN
  | PosInf, NegInf | NegInf, PosInf => NaN
  | PosInf, _ | _, PosInf => PosInf
  | NegInf, _ | _, NegInf => NegInf
  | Fin x, Fin y => Fin (x + y)
  end.

Definition opp (a : number) : number :=
  match a with
  | NaN => NaN
  | PosInf => NegInf
  | NegInf => PosInf
  | Fin x => Fin (- x)
  end.

Definition sub (a b : number) : number := add a (opp b).

Definition div (a b : number) : number :=
  match a, b with
  | NaN, _ | _, NaN => NaN
  | Fin x, Fin y =>
      if Qeq_bool y 0 then
        if Qeq_bool x 0 then NaN else if Qltb 0 x then PosInf else NegInf
      else Fin (x / y)
  | Fin _, _ => Fin 0
  | PosInf, Fin y => if Qltb y 0 then NegInf else PosInf
  | NegInf, Fin y => if Qltb y 0 then PosInf else NegInf
  | _, _ => NaN
  end.

(** [Math.min] and [Math.max]: [NaN] if either argument is [NaN]. *)
Definition min (a b : number) : number :=
  match a, b with
  | NaN, _ | _, NaN => NaN
  | _, _ => if lt b a then b else a
  end.

Definition max (a b : number) : number :=
  match a, b with
  | NaN, _ | _, NaN => NaN
  | _, _ => if lt a b then b else a
  end.

(** [a % b] on the integers the component uses it on: the remainder takes
    the sign of the dividend. *)
Definition rem (a b : Z) : Z := Z.rem a b.

(** The number lies in the closed interval [[lo, hi]]. *)
Definition within (lo hi : Q) (a : number) : Prop :=
  match a with
  | Fin x => lo <= x /\ x <= hi
  | _ => False
  end.

End JS.

Import JS.
Coercion Fin : Q >-> number.

(** ** The component's data *)

(** What a [scheduler] closure captured from the render that created it. *)
Record closure : Type := Closure {
  c_bpm : number;
  c_beatsPerMeasure : Z
}.

(** The oscillator started by [playTick]. *)
Record tick : Type := Tick {
  tk_frequency : Q;
  tk_gain : number;
  tk_start : Q;
  tk_stop : Q
}.

(** The [SpeechSynthesisUtterance] built by [speakBeatNumber]; [u_number]
    is the number whose decimal form is the utterance's text; the language
    is always zh-CN. *)
Record utterance : Type := Utterance {
  u_number : Z;
  u_rate : Q;
  u_volume : number;
  u_pitch : Q
}.

(** One iteration of the scheduler's loop, as seen from outside: the
    cursor it started from and the calls it made. *)
Record beat : Type := Beat {
  b_index : Z;
  b_deadline : number;
  b_isAccent : bool;
  b_tick : option tick;
  b_speech : option utterance
}.

Record state : Type := State {
  (* useState *)
  bpm : number;
  isPlaying : bool;
  currentBeat : Z;
  beatsPerMeasure : Z;
  volume : number;
  voiceEnabled : bool;
  (* useRef *)
  audioContextRef : bool;
  nextNoteTimeRef : number;
  timerIdRef : option positive;
  currentBeatRef : Z;
  volumeRef : number;
  voiceEnabledRef : bool;
  (* the browser *)
  timers : gmap positive closure;
  nextTimerId : positive;
  speechQueue : list utterance
}.

Definition set_bpm (v : number) (s : state) : state :=
  State v (isPlaying s) (currentBeat s) (beatsPerMeasure s) (volume s)
    (voiceEnabled s) (audioContextRef s) (nextNoteTimeRef s) (timerIdRef s)
    (currentBeatRef s) (volumeRef s) (voiceEnabledRef s) (timers s)
    (nextTimerId s) (speechQueue s).

Definition set_isPlaying (v : bool) (s : state) : state :=
  State (bpm s) v (currentBeat s) (beatsPerMeasure s) (volume s)
    (voiceEnabled s) (audioContextRef s) (nextNoteTimeRef s) (timerIdRef s)
    (currentBeatRef s) (volumeRef s) (voiceEnabledRef s) (timers s)
    (nextTimerId s) (speechQueue s).

Definition set_currentBeat (v : Z) (s : state) : state :=
  State (bpm s) (isPlaying s) v (beatsPerMeasure s) (volume s)
    (voiceEnabled s) (audioContextRef s) (nextNoteTimeRef s) (timerIdRef s)
    (currentBeatRef s) (volumeRef s) (voiceEnabledRef s) (timers s)
    (nextTimerId s) (speechQueue s).

Definition set_beatsPerMeasure (v : Z) (s : state) : state :=
  State (bpm s) (isPlaying s) (currentBeat s) v (volume s)
    (voiceEnabled s) (audioContextRef s) (nextNoteTimeRef s) (timerIdRef s)
    (currentBeatRef s) (volumeRef s) (voiceEnabledRef s) (timers s)
    (nextTimerId s) (speechQueue s).

Definition set_volume (v : number) (s : state) : state :=
  State (bpm s) (isPlaying s) (currentBeat s) (beatsPerMeasure s) v
    (voiceEnabled s) (audioContextRef s) (nextNoteTimeRef s) (timerIdRef s)
    (currentBeatRef s) (volumeRef s) (voiceEnabledRef s) (timers s)
    (nextTimerId s) (speechQueue s).

Definition set_voiceEnabled (v : bool) (s : state) : state :=
  State (bpm s) (isPlaying s) (currentBeat s) (beatsPerMeasure s) (volume s)
    v (audioContextRef s) (nextNoteTimeRef s) (timerIdRef s)
    (currentBeatRef s) (volumeRef s) (voiceEnabledRef s) (timers s)
    (nextTimerId s) (speechQueue s).

Definition set_audioContextRef (v : bool) (s : state) : state :=
  State (bpm s) (isPlaying s) (currentBeat s) (beatsPerMeasure s) (volume s)
    (voiceEnabled s) v (nextNoteTimeRef s) (timerIdRef s)
    (currentBeatRef s) (volumeRef s) (voiceEnabledRef s) (timers s)
    (nextTimerId s) (speechQueue s).

Definition set_nextNoteTimeRef (v : number) (s : state) : state :=
  State (bpm s) (isPlaying s) (currentBeat s) (beatsPerMeasure s) (volume s)
    (voiceEnabled s) (audioContextRef s) v (timerIdRef s)
    (currentBeatRef s) (volumeRef s) (voiceEnabledRef s) (timers s)
    (nextTimerId s) (speechQueue s).

Definition set_timerIdRef (v : option positive) (s : state) : state :=
  State (bpm s) (isPlaying s) (currentBeat s) (beatsPerMeasure s) (volume s)
    (voiceEnabled s) (audioContextRef s) (nextNoteTimeRef s) v
    (currentBeatRef s) (volumeRef s) (voiceEnabledRef s) (timers s)
    (nextTimerId s) (speechQueue s).

Definition set_currentBeatRef (v : Z) (s : state) : state :=
  State (bpm s) (isPlaying s) (currentBeat s) (beatsPerMeasure s) (volume s)
    (voiceEnabled s) (audioContextRef s) (nextNoteTimeRef s) (timerIdRef s)
    v (volumeRef s) (voiceEnabledRef s) (timers s)
    (nextTimerId s) (speechQueue s).

Definition set_volumeRef (v : number) (s : state) : state :=
  State (bpm s) (isPlaying s) (currentBeat s) (beatsPerMeasure s) (volume s)
    (voiceEnabled s) (audioContextRef s) (nextNoteTimeRef s) (timerIdRef s)
    (currentBeatRef s) v (voiceEnabledRef s) (timers s)
    (nextTimerId s) (speechQueue s).

Definition set_voiceEnabledRef (v : bool) (s : state) : state :=
  State (bpm s) (isPlaying s) (currentBeat s) (beatsPerMeasure s) (volume s)
    (voiceEnabled s) (audioContextRef s) (nextNoteTimeRef s) (timerIdRef s)
    (currentBeatRef s) (volumeRef s) v (timers s)
    (nextTimerId s) (speechQueue s).

Definition set_timers (v : gmap positive closure) (s : state) : state :=
  State (bpm s) (isPlaying s) (currentBeat s) (beatsPerMeasure s) (volume s)
    (voiceEnabled s) (audioContextRef s) (nextNoteTimeRef s) (timerIdRef s)
    (currentBeatRef s) (volumeRef s) (voiceEnabledRef s) v
    (nextTimerId s) (speechQueue s).

Definition set_nextTimerId (v : positive) (s : state) : state :=
  State (bpm s) (isPlaying s) (currentBeat s) (beatsPerMeasure s) (volume s)
    (voiceEnabled s) (audioContextRef s) (nextNoteTimeRef s) (timerIdRef s)
    (currentBeatRef s) (volumeRef s) (voiceEnabledRef s) (timers s)
    v (speechQueue s).

Definition set_speechQueue (v : list utterance) (s : state) : state :=
  State (bpm s) (isPlaying s) (currentBeat s) (beatsPerMeasure s) (volume s)
    (voiceEnabled s) (audioContextRef s) (nextNoteTimeRef s) (timerIdRef s)
    (currentBeatRef s) (volumeRef s) (voiceEnabledRef s) (timers s)
    (nextTimerId s) v.

(** ** Browser services *)

(** [window.setTimeout(scheduler, 25)] for the closure [c], with the fresh
    identifier stored in [timerIdRef] as the last line of [scheduler] does.
    Identifiers are positive integers, hence truthy. *)
Definition setTimeout (c : closure) (s : state) : state :=
  let id := nextTimerId s in
  set_timerIdRef (Some id)
    (set_nextTimerId (Pos.succ id) (set_timers (<[id := c]> (timers s)) s)).

Definition clearTimeout (id : positive) (s : state) : state :=
  set_timers (delete id (timers s)) s.

(** [window.speechSynthesis.speak(u)] and [window.speechSynthesis.cancel()]
    on the queue of utterances not yet spoken. *)
Definition speak (u : utterance) (s : state) : state :=
  set_speechQueue (speechQueue s ++ [u]) s.

Definition speech_cancel (s : state) : state := set_speechQueue [] s.

(** ** State setters of [useState]: an update to the same value is dropped *)

Definition setBpm (v : number) (s : state) : state :=
  if same (bpm s) v then s else set_bpm v s.

Definition setVolume (v : number) (s : state) : state :=
  if same (volume s) v then s else set_volume v s.

Definition setIsPlaying : bool -> state -> state := set_isPlaying.
Definition setCurrentBeat : Z -> state -> state := set_currentBeat.
Definition setBeatsPerMeasure : Z -> state -> state := set_beatsPerMeasure.
Definition setVoiceEnabled : bool -> state -> state := set_voiceEnabled.

(** ** Pulse emitter and announcer *)

Definition playTick (now : Q) (isAccent : bool) (s : state) : option tick :=
  if audioContextRef s then
    Some (Tick (if isAccent then 1000 else 800) (volumeRef s)
            now (now + 0.05))
  else None.

Definition speakBeatNumber (beatNumber : Z) (s : state) : option utterance :=
  if voiceEnabledRef s then
    Some (Utterance (beatNumber + 1) 2 (volumeRef s)
            (if (beatNumber =? 0)%Z then 1.3 else 1))
  else None.

(** ** The scheduler *)

Definition scheduleAheadTime : Q := 0.1.

(** The body of the [while] loop. *)
Definition scheduler_body (c : closure) (now : Q) (s : state) : state * beat :=
  let isAccent := (currentBeatRef s =? 0)%Z in
  let t := playTick now isAccent s in
  let u := speakBeatNumber (currentBeatRef s) s in
  let s1 := match u with Some u => speak u s | None => s end in
  let s2 := setCurrentBeat (currentBeatRef s1) s1 in
  let s3 :=
    set_currentBeatRef (rem (currentBeatRef s2 + 1) (c_beatsPerMeasure c)) s2 in
  let secondsPerBeat := div 60 (c_bpm c) in
  let s4 := set_nextNoteTimeRef (add (nextNoteTimeRef s3) secondsPerBeat) s3 in
  (s4, Beat (currentBeatRef s) (nextNoteTimeRef s) isAccent t u).

Fixpoint scheduler_loop (fuel : nat) (c : closure) (now : Q) (s : state)
  : option (state * list beat) :=
  match fuel with
  | O => None
  | S fuel' =>
      if lt (nextNoteTimeRef s) (now + scheduleAheadTime) then
        let '(s1, b) := scheduler_body c now s in
        match scheduler_loop fuel' c now s1 with
        | Some (s2, bs) => Some (s2, b :: bs)
        | None => None
        end
      else Some (s, [])
  end.

Definition scheduler (fuel : nat) (c : closure) (now : Q) (s : state)
  : option (state * list beat) :=
  if negb (audioContextRef s) then Some (s, [])
  else
    match scheduler_loop fuel c now s with
    | Some (s1, bs) => Some (setTimeout c s1, bs)
    | None => None
    end.

(** ** The start/stop effect, dependencies [isPlaying, bpm, beatsPerMeasure] *)

Definition effect_cleanup (s : state) : state :=
  speech_cancel
    (match timerIdRef s with
     | Some id => clearTimeout id s
     | None => s
     end).

Definition effect_body (fuel : nat) (now : Q) (s : state)
  : option (state * list beat) :=
  if isPlaying s then
    let s1 := if audioContextRef s then set_nextNoteTimeRef now s else s in
    let s2 := set_currentBeatRef 0 s1 in
    let s3 := setCurrentBeat 0 s2 in
    scheduler fuel (Closure (bpm s) (beatsPerMeasure s)) now s3
  else
    let s1 :=
      match timerIdRef s with
      | Some id => set_timerIdRef None (clearTimeout id s)
      | None => s
      end in
    let s2 := speech_cancel s1 in
    let s3 := setCurrentBeat 0 s2 in
    Some (set_currentBeatRef 0 s3, []).

Definition deps_changed (old new : state) : bool :=
  negb (Bool.eqb (isPlaying old) (isPlaying new)
        && same (bpm old) (bpm new)
        && (beatsPerMeasure old =? beatsPerMeasure new)%Z).

(** What React does after the render that turned [old] into [new]: the
    clean-up of the start/stop effect if its dependencies changed, then the
    bodies of the effects whose dependencies changed, in source order. *)
Definition commit (fuel : nat) (now : Q) (old new : state)
  : option (state * list beat) :=
  let restart := deps_changed old new in
  let s1 := if restart then effect_cleanup new else new in
  let s2 := if same (volume old) (volume new) then s1
            else set_volumeRef (volume s1) s1 in
  let s3 := if Bool.eqb (voiceEnabled old) (voiceEnabled new) then s2
            else set_voiceEnabledRef (voiceEnabled s2) s2 in
  if restart then effect_body fuel now s3 else Some (s3, []).

(** ** Handlers *)

Definition handleBpmChange (newBpm : number) (s : state) : state :=
  let clampedBpm := JS.max 40 (JS.min 240 newBpm) in
  setBpm clampedBpm s.

Definition presets : list number := [Fin 60; Fin 90; Fin 120; Fin 140; Fin 180].
Definition meters : list Z := [2; 3; 4; 5; 6]%Z.

Inductive event : Type :=
  | ClickMinus                      (* handleBpmChange(bpm - 1) *)
  | ClickPlus                       (* handleBpmChange(bpm + 1) *)
  | SlideBpm (parsed : number)      (* handleBpmChange(parseInt(value)) *)
  | ClickPreset (presetBpm : number)
  | ClickMeter (beats : Z)
  | SlideVolume (parsed : number)   (* setVolume(parseFloat(value)) *)
  | ClickVoice                      (* setVoiceEnabled(!voiceEnabled) *)
  | ClickPlay                       (* setIsPlaying(!isPlaying) *)
  | TimerFires (id : positive)      (* the browser runs a pending time-out *)
  | SpeechSpoken.                   (* the speech backend took one utterance *)

(** The buttons that exist. *)
Definition wf_event (e : event) : Prop :=
  match e with
  | ClickPreset p => In p presets
  | ClickMeter beats => In beats meters
  | _ => True
  end.

(** The state update a handler requests. *)
Definition handler (e : event) (s : state) : state :=
  match e with
  | ClickMinus => handleBpmChange (sub (bpm s) 1) s
  | ClickPlus => handleBpmChange (add (bpm s) 1) s
  | SlideBpm parsed => handleBpmChange parsed s
  | ClickPreset presetBpm => handleBpmChange presetBpm s
  | ClickMeter beats => setCurrentBeat 0 (setBeatsPerMeasure beats s)
  | SlideVolume parsed => setVolume parsed s
  | ClickVoice => setVoiceEnabled (negb (voiceEnabled s)) s
  | ClickPlay => setIsPlaying (negb (isPlaying s)) s
  | TimerFires _ | SpeechSpoken => s
  end.

Definition step (fuel : nat) (now : Q) (e : event) (s : state)
  : option (state * list beat) :=
  match e with
  | TimerFires id =>
      match timers s !! id with
      | Some c => scheduler fuel c now (set_timers (delete id (timers s)) s)
      | None => Some (s, [])
      end
  | SpeechSpoken => Some (set_speechQueue (tail (speechQueue s)) s, [])
  | _ => commit fuel now s (handler e s)
  end.

Fixpoint run (fuel : nat) (es : list (Q * event)) (s : state)
  : option (state * list beat) :=
  match es with
  | [] => Some (s, [])
  | (now, e) :: es' =>
      match step fuel now e s with
      | Some (s1, bs1) =>
          match run fuel es' s1 with
          | Some (s2, bs2) => Some (s2, bs1 ++ bs2)
          | None => None
          end
      | None => None
      end
  end.

(** ** Mounting *)

(** The values the hooks are created with. *)
Definition initial : state :=
  State 120 false 0 4 0.5 false false 0 None 0 0.5 false ∅ 1%positive [].

(** The effects of the first commit, in source order. *)
Definition mount (fuel : nat) (now : Q) (s : state)
  : option (state * list beat) :=
  let s1 := set_volumeRef (volume s) s in
  let s2 := set_voiceEnabledRef (voiceEnabled s1) s1 in
  let s3 := set_audioContextRef true s2 in
  effect_body fuel now s3.

Definition mounted : state := set_audioContextRef true initial.

Inductive reachable : state -> Prop :=
  | reach_mount : reachable mounted
  | reach_step fuel now e s s' bs :
      reachable s -> wf_event e -> step fuel now e s = Some (s', bs) ->
      reachable s'.

(** ** Vocabulary of the properties *)

(** The scheduler cursor: next-beat index and next-beat deadline. *)
Definition cursor : Type := Z * number.

Definition cursor_of (s : state) : cursor :=
  (currentBeatRef s, nextNoteTimeRef s).

Definition beat_cursor (b : beat) : cursor := (b_index b, b_deadline b).

Definition closure_of (s : state) : closure :=
  Closure (bpm s) (beatsPerMeasure s).

(** What one loop iteration does to the cursor. *)
Definition advance (c : closure) (k : cursor) : cursor :=
  (rem (fst k + 1) (c_beatsPerMeasure c), add (snd k) (div 60 (c_bpm c))).

(** The cursor after [n] iterations, and the cursors the [n] iterations
    started from. *)
Fixpoint advance_n (c : closure) (n : nat) (k : cursor) : cursor :=
  match n with
  | O => k
  | S n' => advance_n c n' (advance c k)
  end.

Fixpoint cursors (c : closure) (n : nat) (k : cursor) : list cursor :=
  match n with
  | O => []
  | S n' => k :: cursors c n' (advance c k)
  end.

(** The number of quarter seconds between the deadline and the horizon
    bounds the number of iterations. *)
Definition iteration_bound (now d : Q) : nat :=
  Z.to_nat (Qceiling (4 * (now + scheduleAheadTime - d))).

(** The four fields the loop writes, replaced in [s]. *)
Definition with_cursor (cb cbr : Z) (nnt : number) (sq : list utterance)
  (s : state) : state :=
  State (bpm s) (isPlaying s) cb (beatsPerMeasure s) (volume s)
    (voiceEnabled s) (audioContextRef s) nnt (timerIdRef s)
    cbr (volumeRef s) (voiceEnabledRef s) (timers s)
    (nextTimerId s) sq.

(** [a <= b] on finite numbers. *)
Definition le (a b : number) : Prop :=
  match a, b with
  | Fin x, Fin y => x <= y
  | _, _ => False
  end.

(** The tempo values [handleBpmChange] can leave behind. *)
Definition bpm_ok (a : number) : Prop := a = NaN \/ within 40 240 a.

(** The deadline is finite, or it was lost to a [NaN] tempo. *)
Definition deadline_ok (s : state) : Prop :=
  match nextNoteTimeRef s with
  | Fin _ => True
  | NaN => isPlaying s = false \/ bpm s = NaN
  | _ => False
  end.

(** At most one time-out is pending: the one [timerIdRef] names, armed
    with the tempo and meter of the current render, and only while
    playing. *)
Definition timers_ok (s : state) : Prop :=
  if isPlaying s then
    exists id, timerIdRef s = Some id /\ timers s = {[ id := closure_of s ]}
  else timers s = ∅.

(** The hook state replaced in [s], refs and browser untouched: what a
    handler followed by a render can do. *)
Definition with_hooks (b : number) (p : bool) (cb m : Z) (v : number)
  (ve : bool) (s : state) : state :=
  State b p cb m v ve (audioContextRef s) (nextNoteTimeRef s) (timerIdRef s)
    (currentBeatRef s) (volumeRef s) (voiceEnabledRef s) (timers s)
    (nextTimerId s) (speechQueue s).

(** The renders a handler can cause from [old]: updates that React would
    drop leave the value as it was, the tempo went through the clamp, and
    the meter is one of the buttons. *)
Definition rendered (old new : state) : Prop :=
  exists b p cb m v ve,
    new = with_hooks b p cb m v ve old
    /\ (same (bpm old) b = true -> b = bpm old)
    /\ (same (volume old) v = true -> v = volume old)
    /\ bpm_ok b
    /\ In m meters
    /\ (0 <= cb < m)%Z.

Record inv (s : state) : Prop := Inv {
  inv_ctx : audioContextRef s = true;
  inv_volume : volumeRef s = volume s;
  inv_voice : voiceEnabledRef s = voiceEnabled s;
  inv_meter : In (beatsPerMeasure s) meters;
  inv_ref : (0 <= currentBeatRef s < beatsPerMeasure s)%Z;
  inv_published : (0 <= currentBeat s < beatsPerMeasure s)%Z;
  inv_bpm : bpm_ok (bpm s);
  inv_deadline : deadline_ok s;
  inv_timers : timers_ok s
}.

(** A stretch of one running session: steps that leave the dependencies
    of the start/stop effect as they are. *)
Inductive session (fuel : nat) : state -> list beat -> state -> Prop :=
  | session_done s : session fuel s [] s
  | session_step now e s s1 s2 bs1 bs2 :
      wf_event e ->
      deps_changed s (handler e s) = false ->
      step fuel now e s = Some (s1, bs1) ->
      session fuel s1 bs2 s2 ->
      session fuel s (bs1 ++ bs2) s2.

(** The cursors a stretch of a session went through: the one each beat
    was emitted from, then the one it ended with. *)
Definition trajectory (bs : list beat) (s' : state) : list cursor :=
  map beat_cursor bs ++ [cursor_of s'].

(** The accent of a beat as its consumers see it. *)
Definition accent_ok (b : beat) : Prop :=
  b_isAccent b = (b_index b =? 0)%Z
  /\ (forall t, b_tick b = Some t ->
        tk_frequency t = if (b_index b =? 0)%Z then 1000 else 800)
  /\ (forall u, b_speech b = Some u ->
        u_number u = (b_index b + 1)%Z
        /\ u_pitch u = if (b_index b =? 0)%Z then 1.3 else 1).

(** The volume and the voice switch a beat was emitted with. *)
Definition emitted_with (v : number) (voice : bool) (b : beat) : Prop :=
  (forall t, b_tick b = Some t -> tk_gain t = v)
  /\ (forall u, b_speech b = Some u -> u_volume u = v)
  /\ (is_Some (b_speech b) <-> voice = true).

(** While the cursor points at beat 0: no beat yet, or beat 0 came first. *)
Definition first_is_downbeat (s' : state) (bs : list beat) : Prop :=
  match bs with
  | [] => currentBeatRef s' = 0%Z
  | b :: _ => b_index b = 0%Z /\ b_isAccent b = true
  end.

Definition is_ClickVoice (e : event) : bool :=
  match e with ClickVoice => true | _ => false end.

(** The number an event passes to [handleBpmChange], if it is one of the
    tempo controls. *)
Definition tempo_request (e : event) (s : state) : option number :=
  match e with
  | ClickMinus => Some (sub (bpm s) 1)
  | ClickPlus => Some (add (bpm s) 1)
  | SlideBpm parsed => Some parsed
  | ClickPreset presetBpm => Some presetBpm
  | _ => None
  end.

(** The reading of the spec under which a tempo change while running keeps
    the cursor: the next beat, whether emitted by the step itself or later,
    is the one the cursor pointed at before. *)
Definition tempo_change_keeps_cursor : Prop :=
  forall fuel now parsed s s' bs,
    reachable s -> isPlaying s = true ->
    same (bpm s) (bpm (handleBpmChange parsed s)) = false ->
    step fuel now (SlideBpm parsed) s = Some (s', bs) ->
    match bs with
    | b :: _ => beat_cursor b = cursor_of s
    | [] => cursor_of s' = cursor_of s
    end.

(** The deadline of the beat is the time [d]. *)
Definition deadline_is (b : beat) (d : Q) : bool := same (b_deadline b) (Fin d).

(** A session used to instantiate the statements below: the component is
    mounted, the voice is switched on, play is pressed at time 0 and the
    time-out fires twice. *)
Definition demo_events : list (Q * event) :=
  [(0, ClickVoice); (0, ClickPlay); (0.03, TimerFires 1); (0.45, TimerFires 2)].

Definition demo_playing : state :=
  match run 4 demo_events mounted with
  | Some (s, _) => s
  | None => mounted
  end.

(** ** What is rendered, and unmounting *)

(** [a === b] on numbers: [NaN] equals nothing. *)
Definition strict_eq (a b : number) : bool :=
  match a, b with
  | NaN, _ | _, NaN => false
  | _, _ => same a b
  end.

(** The three looks of a cell of the beat visualisation. *)
Inductive cell : Type :=
  | CellAccent    (* lit, purple: the first beat *)
  | CellBeat      (* lit, blue *)
  | CellIdle.     (* not lit *)

Definition beatCell (s : state) (index : Z) : cell :=
  if isPlaying s && (currentBeat s =? index)%Z then
    if (index =? 0)%Z then CellAccent else CellBeat
  else CellIdle.

(** [Array.from({ length: beatsPerMeasure }).map((_, index) => ...)]. *)
Definition beatCells (s : state) : list cell :=
  map (beatCell s) (map Z.of_nat (seq 0 (Z.to_nat (beatsPerMeasure s)))).

Definition isLit (c : cell) : bool :=
  match c with CellIdle => false | _ => true end.

(** The preset buttons, each with whether it is drawn as selected. *)
Definition presetButtons (s : state) : list (number * bool) :=
  map (fun presetBpm => (presetBpm, strict_eq (bpm s) presetBpm)) presets.

(** The clean-ups React runs when the component goes away: the audio
    context is closed if there is one (the flag returned), the time-out
    [timerIdRef] names is cleared and the speech queue is cancelled. *)
Definition unmount (s : state) : state * bool :=
  (effect_cleanup s, audioContextRef s).

(** The controls that are not dependencies of the start/stop effect: the
    volume slider, the voice switch and the button of the meter already
    selected. *)
Definition keeps_session (s : state) (e : event) : bool :=
  match e with
  | SlideVolume _ | ClickVoice => true
  | ClickMeter beats => (beats =? beatsPerMeasure s)%Z
  | _ => false
  end.

(** The announcements among the beats, in order. *)
Definition announcements (bs : list beat) : list utterance :=
  omap b_speech bs.

(** ** What the page can deliver *)

(** The events the rendered controls produce.  The tempo slider is an
    [<input type="range" min="40" max="240">] with the default step 1: the
    browser keeps its value a whole number of that range, so [parseInt]
    returns an integer between 40 and 240.  The volume slider has
    [min="0" max="1"], so [parseFloat] returns a number between 0 and 1.
    The buttons are as in [wf_event]. *)
Definition delivered (e : event) : Prop :=
  match e with
  | SlideBpm parsed =>
      exists n : Z, (40 <= n <= 240)%Z /\ parsed = Fin (inject_Z n)
  | SlideVolume parsed =>
      exists v : Q, 0 <= v /\ v <= 1 /\ parsed = Fin v
  | _ => wf_event e
  end.

(** The states of the component in use: mounted, then driven by events
    the page delivers. *)
Inductive in_use : state -> Prop :=
  | use_mount : in_use mounted
  | use_step fuel now e s s' bs :
      in_use s -> delivered e -> step fuel now e s = Some (s', bs) ->
      in_use s'.

(** A session at the upper end of the tempo range: the slider is dragged
    to 240, plus is clicked, and play is pressed at time 0. *)
Definition demo_fast_events : list (Q * event) :=
  [(0, SlideBpm 240); (0, ClickPlus); (0, ClickPlay)].

Definition demo_fast : state :=
  match run 2 demo_fast_events mounted with
  | Some (s, _) => s
  | None => mounted
  end.

(** ** Polling *)


(** ** The deadlines in double precision *)

(** The arithmetic on [nextNoteTimeRef] as the engine performs it, on IEEE
    754 binary64 numbers: every operation rounds to the nearest double. *)
Module F64.

Definition of_Z (n : Z) : PrimFloat.float :=
  PrimFloat.of_uint63 (Uint63.of_Z n).


(** [const secondsPerBeat = 60.0 / bpm]. *)
Definition secondsPerBeat (bpm : PrimFloat.float) : PrimFloat.float :=
  PrimFloat.div (of_Z 60) bpm.

(** [nextNoteTimeRef.current += secondsPerBeat]. *)
Definition advance (bpm nextNoteTime : PrimFloat.float) : PrimFloat.float :=
  PrimFloat.add nextNoteTime (secondsPerBeat bpm).

(** The deadline of the [i]-th beat after a start at clock [now0]: the
    effect stores [now0], and every loop iteration advances it. *)
Fixpoint deadline (bpm now0 : PrimFloat.float) (i : nat) : PrimFloat.float :=
  match i with
  | O => now0
  | S i' => advance bpm (deadline bpm now0 i')
  end.


End F64.

(** Reduce the projections of a state built by setters, and nothing else. *)
Ltac fields :=
  cbn [bpm isPlaying currentBeat beatsPerMeasure volume voiceEnabled
       audioContextRef nextNoteTimeRef timerIdRef currentBeatRef volumeRef
       voiceEnabledRef timers nextTimerId speechQueue
       set_bpm set_isPlaying set_currentBeat set_beatsPerMeasure set_volume
       set_voiceEnabled set_audioContextRef set_nextNoteTimeRef
       set_timerIdRef set_currentBeatRef set_volumeRef set_voiceEnabledRef
       set_timers set_nextTimerId set_speechQueue
       setIsPlaying setCurrentBeat setBeatsPerMeasure setVoiceEnabled
       setTimeout clearTimeout speak speech_cancel
       with_cursor with_hooks closure_of c_bpm c_beatsPerMeasure] in *.

(** * Properties *)

(** ** Numbers *)

Lemma Qltb_lt a b : Qltb a b = true <-> a < b.
Proof.
  unfold Qltb. rewrite negb_true_iff, <- not_true_iff_false, Qle_bool_iff.
  split; [apply Qnot_le_lt | apply Qlt_not_le].
Qed.

Lemma Qltb_ge a b : Qltb a b = false <-> b <= a.
Proof.
  unfold Qltb. rewrite negb_false_iff. apply Qle_bool_iff.
Qed.

Lemma same_refl a : same a a = true.
Proof. destruct a; simpl; auto using Qeq_bool_refl. Qed.

Lemma within_same lo hi a b :
  same a b = true -> within lo hi b -> within lo hi a.
Proof.
  destruct a, b; simpl; try discriminate; try tauto.
  intros H%Qeq_bool_eq [? ?]. rewrite H. auto.
Qed.

Lemma clamp_Fin q :
  exists t, JS.max 40 (JS.min 240 (Fin q)) = Fin t /\ 40 <= t /\ t <= 240.
Proof.
  unfold JS.min, JS.max; simpl.
  destruct (Qltb q 240) eqn:E1.
  - simpl. destruct (Qltb 40 q) eqn:E2.
    + exists q. apply Qltb_lt in E1, E2. repeat split; lra.
    + exists 40. repeat split; lra.
  - simpl. exists 240. repeat split; lra.
Qed.

Lemma clamp_within x : x <> NaN -> within 40 240 (JS.max 40 (JS.min 240 x)).
Proof.
  destruct x as [| | |q]; intros Hx; try congruence.
  - vm_compute. split; discriminate.
  - vm_compute. split; discriminate.
  - destruct (clamp_Fin q) as (t & -> & ?). simpl. auto.
Qed.

Lemma clamp_bpm_ok x : bpm_ok (JS.max 40 (JS.min 240 x)).
Proof.
  destruct x; try (right; apply clamp_within; discriminate). now left.
Qed.

Lemma div_60_Fin t : 40 <= t -> div 60 (Fin t) = Fin (60 / t).
Proof.
  intros Ht. simpl. destruct (Qeq_bool t 0) eqn:E; [|reflexivity].
  apply Qeq_bool_eq in E. lra.
Qed.

Lemma seconds_per_beat_bounds t :
  40 <= t -> t <= 240 -> 1 # 4 <= 60 / t /\ 60 / t <= 3 # 2.
Proof.
  intros Hlo Hhi.
  assert (Ht : 0 < t) by lra.
  assert (E : 60 / t * t == 60) by (field; lra).
  split.
  - apply Qnot_lt_le. intros H.
    assert (60 / t * t < (1 # 4) * 240) by nra. lra.
  - apply Qnot_lt_le. intros H.
    assert ((3 # 2) * 40 < 60 / t * t) by nra. lra.
Qed.

Lemma advance_n_add c n1 n2 k :
  advance_n c (n1 + n2) k = advance_n c n2 (advance_n c n1 k).
Proof. revert k. induction n1; simpl; auto. Qed.

Lemma cursors_add c n1 n2 k :
  cursors c (n1 + n2) k = cursors c n1 k ++ cursors c n2 (advance_n c n1 k).
Proof. revert k. induction n1; simpl; intros; f_equal; auto. Qed.

Lemma cursors_length c n k : length (cursors c n k) = n.
Proof. revert k. induction n; simpl; auto. Qed.

Lemma cursors_lookup c n k i :
  (i < n)%nat -> cursors c n k !! i = Some (advance_n c i k).
Proof.
  revert k i. induction n; intros k i Hi; [lia|].
  destruct i; simpl; [reflexivity|]. apply IHn. lia.
Qed.

(** The index after [n] iterations is the start index plus [n], modulo the
    meter. *)
Lemma advance_n_index c n k :
  (0 < c_beatsPerMeasure c)%Z -> (0 <= fst k < c_beatsPerMeasure c)%Z ->
  fst (advance_n c n k) = ((fst k + Z.of_nat n) mod c_beatsPerMeasure c)%Z.
Proof.
  intros Hm. revert k. induction n; intros k Hk.
  - simpl. rewrite Z.add_0_r, Z.mod_small; auto.
  - cbn [advance_n]. rewrite IHn.
    + unfold advance, rem; cbn [fst].
      rewrite Z.rem_mod_nonneg by lia.
      rewrite Zplus_mod_idemp_l. f_equal. lia.
    + unfold advance, rem; cbn [fst].
      rewrite Z.rem_mod_nonneg by lia. apply Z.mod_pos_bound. lia.
Qed.

(** The deadline after [n] iterations at a tempo in range is the start
    deadline plus [n] intervals of [60 / t]. *)
Lemma advance_n_deadline t m n k d :
  40 <= t ->
  exists d', snd (advance_n (Closure (Fin t) m) n (k, Fin d)) = Fin d'
             /\ d' == d + inject_Z (Z.of_nat n) * (60 / t).
Proof.
  intros Ht. revert k d. induction n; intros k d.
  - exists d. split; [reflexivity|]. simpl. ring.
  - cbn [advance_n]. unfold advance. cbn [fst snd c_bpm c_beatsPerMeasure].
    rewrite div_60_Fin by assumption. cbn [add].
    destruct (IHn (rem (k + 1) m) (d + 60 / t)) as (d' & E & Hd').
    exists d'. split; [exact E|].
    rewrite Hd', Nat2Z.inj_succ. unfold Z.succ. rewrite inject_Z_plus.
    change (inject_Z 1) with 1. ring.
Qed.

(** ** The catch-up loop *)

Lemma scheduler_body_state c now s :
  fst (scheduler_body c now s) =
  with_cursor (currentBeatRef s)
    (rem (currentBeatRef s + 1) (c_beatsPerMeasure c))
    (add (nextNoteTimeRef s) (div 60 (c_bpm c)))
    (match speakBeatNumber (currentBeatRef s) s with
     | Some u => speechQueue s ++ [u]
     | None => speechQueue s
     end) s.
Proof.
  unfold scheduler_body. destruct (speakBeatNumber _ s); reflexivity.
Qed.

Lemma scheduler_body_beat c now s :
  snd (scheduler_body c now s) =
  Beat (currentBeatRef s) (nextNoteTimeRef s) (currentBeatRef s =? 0)%Z
    (playTick now (currentBeatRef s =? 0)%Z s)
    (speakBeatNumber (currentBeatRef s) s).
Proof. reflexivity. Qed.

Lemma scheduler_loop_unfold fuel c now s :
  scheduler_loop (S fuel) c now s =
  if lt (nextNoteTimeRef s) (now + scheduleAheadTime) then
    match scheduler_loop fuel c now (fst (scheduler_body c now s)) with
    | Some (s2, bs) => Some (s2, snd (scheduler_body c now s) :: bs)
    | None => None
    end
  else Some (s, []).
Proof. reflexivity. Qed.

(** Case analysis on one unfolding of the loop. *)
Lemma scheduler_loop_inv fuel c now s s' bs :
  scheduler_loop fuel c now s = Some (s', bs) ->
  (lt (nextNoteTimeRef s) (now + scheduleAheadTime) = false
   /\ s' = s /\ bs = [])
  \/ (exists fuel' bs',
        fuel = S fuel'
        /\ lt (nextNoteTimeRef s) (now + scheduleAheadTime) = true
        /\ bs = snd (scheduler_body c now s) :: bs'
        /\ scheduler_loop fuel' c now (fst (scheduler_body c now s))
           = Some (s', bs')).
Proof.
  destruct fuel as [|fuel']; [discriminate|].
  rewrite scheduler_loop_unfold.
  destruct (lt _ _) eqn:E.
  - destruct (scheduler_loop fuel' _ _ _) as [[s2 bs2]|] eqn:E2; [|discriminate].
    intros [= <- <-]. right. eauto 10.
  - intros [= <- <-]. left. auto.
Qed.

Lemma with_cursor_idem a b c d a' b' c' d' s :
  with_cursor a b c d (with_cursor a' b' c' d' s) = with_cursor a b c d s.
Proof. reflexivity. Qed.

Lemma with_cursor_self s :
  s = with_cursor (currentBeat s) (currentBeatRef s) (nextNoteTimeRef s)
        (speechQueue s) s.
Proof. destruct s; reflexivity. Qed.

(** The loop writes nothing but the published beat, the cursor and the
    speech queue. *)
Lemma scheduler_loop_frame fuel c now s s' bs :
  scheduler_loop fuel c now s = Some (s', bs) ->
  s' = with_cursor (currentBeat s') (currentBeatRef s') (nextNoteTimeRef s')
         (speechQueue s') s.
Proof.
  revert s bs. induction fuel as [|fuel IH]; intros s bs H;
    apply scheduler_loop_inv in H as [(_ & -> & _)|(f & bs' & E & _ & _ & H)].
  - apply with_cursor_self.
  - discriminate.
  - apply with_cursor_self.
  - injection E as <-. apply IH in H. rewrite scheduler_body_state in H.
    rewrite with_cursor_idem in H. exact H.
Qed.

(** The beats of one loop run are the cursors it went through. *)
Lemma scheduler_loop_cursor fuel c now s s' bs :
  scheduler_loop fuel c now s = Some (s', bs) ->
  map beat_cursor bs = cursors c (length bs) (cursor_of s)
  /\ cursor_of s' = advance_n c (length bs) (cursor_of s).
Proof.
  revert s bs. induction fuel as [|fuel IH]; intros s bs H;
    apply scheduler_loop_inv in H as [(_ & -> & ->)|(f & bs' & E & _ & -> & H)];
    try discriminate; try (split; reflexivity).
  injection E as <-. apply IH in H as [H1 H2].
  rewrite scheduler_body_state in H1, H2.
  split; simpl; [f_equal|]; assumption.
Qed.

(** More fuel does not change the result. *)
Lemma scheduler_loop_fuel fuel fuel' c now s r :
  scheduler_loop fuel c now s = Some r -> (fuel <= fuel')%nat ->
  scheduler_loop fuel' c now s = Some r.
Proof.
  revert fuel' s r. induction fuel as [|fuel IH]; intros fuel' s r H Hle;
    [discriminate|].
  destruct fuel' as [|fuel']; [lia|].
  rewrite scheduler_loop_unfold in *.
  destruct (lt _ _); [|exact H].
  destruct (scheduler_loop fuel _ _ _) as [[s2 bs2]|] eqn:E; [|discriminate].
  rewrite (IH fuel' _ _ E) by lia. exact H.
Qed.

(** When the loop returns, its condition is false. *)
Lemma scheduler_loop_exit fuel c now s s' bs :
  scheduler_loop fuel c now s = Some (s', bs) ->
  lt (nextNoteTimeRef s') (now + scheduleAheadTime) = false.
Proof.
  revert s bs. induction fuel as [|fuel IH]; intros s bs H;
    apply scheduler_loop_inv in H as [(E & -> & _)|(f & bs' & E & _ & _ & H)];
    try discriminate; try assumption.
  injection E as <-. eauto.
Qed.

Lemma scheduler_loop_accent fuel c now s s' bs :
  scheduler_loop fuel c now s = Some (s', bs) -> Forall accent_ok bs.
Proof.
  revert s bs. induction fuel as [|fuel IH]; intros s bs H;
    apply scheduler_loop_inv in H as [(_ & _ & ->)|(f & bs' & E & _ & -> & H)];
    try discriminate; try constructor.
  - rewrite scheduler_body_beat. unfold accent_ok, playTick, speakBeatNumber.
    cbn [b_isAccent b_index b_tick b_speech]. split; [reflexivity|]. split.
    + intros t. destruct (audioContextRef s); [|discriminate].
      intros [= <-]. reflexivity.
    + intros u. destruct (voiceEnabledRef s); [|discriminate].
      intros [= <-]. split; reflexivity.
  - injection E as <-. eauto.
Qed.

Lemma scheduler_loop_emitted fuel c now s s' bs :
  scheduler_loop fuel c now s = Some (s', bs) ->
  Forall (emitted_with (volumeRef s) (voiceEnabledRef s)) bs.
Proof.
  revert s bs. induction fuel as [|fuel IH]; intros s bs H;
    apply scheduler_loop_inv in H as [(_ & _ & ->)|(f & bs' & E & _ & -> & H)];
    try discriminate; try constructor.
  - rewrite scheduler_body_beat. unfold emitted_with, playTick, speakBeatNumber.
    cbn [b_isAccent b_index b_tick b_speech]. split; [|split].
    + intros t. destruct (audioContextRef s); [|discriminate].
      intros [= <-]. reflexivity.
    + intros u. destruct (voiceEnabledRef s); [|discriminate].
      intros [= <-]. reflexivity.
    + destruct (voiceEnabledRef s); split; intros H'; eauto;
        try discriminate. destruct H' as [? [=]].
  - injection E as <-. apply IH in H.
    rewrite scheduler_body_state in H. exact H.
Qed.

(** Both beat indices stay below the meter the loop was created with. *)
Lemma scheduler_loop_range fuel c now s s' bs :
  (0 < c_beatsPerMeasure c)%Z ->
  scheduler_loop fuel c now s = Some (s', bs) ->
  (0 <= currentBeatRef s < c_beatsPerMeasure c)%Z ->
  (0 <= currentBeat s < c_beatsPerMeasure c)%Z ->
  (0 <= currentBeatRef s' < c_beatsPerMeasure c)%Z
  /\ (0 <= currentBeat s' < c_beatsPerMeasure c)%Z.
Proof.
  intros Hm. revert s bs. induction fuel as [|fuel IH]; intros s bs H Hr Hp;
    apply scheduler_loop_inv in H as [(_ & -> & _)|(f & bs' & E & _ & _ & H)];
    try discriminate; auto.
  injection E as <-. apply IH in H; auto; rewrite scheduler_body_state;
    cbn [with_cursor currentBeatRef currentBeat]; auto.
  unfold rem. rewrite Z.rem_mod_nonneg by lia. apply Z.mod_pos_bound. lia.
Qed.

Lemma scheduler_loop_deadline_ok fuel c now s s' bs :
  c_bpm c = bpm s -> bpm_ok (bpm s) ->
  scheduler_loop fuel c now s = Some (s', bs) ->
  deadline_ok s -> deadline_ok s'.
Proof.
  intros Hc Hb. revert s bs Hc Hb.
  induction fuel as [|fuel IH]; intros s bs Hc Hb H Hd;
    apply scheduler_loop_inv in H as [(_ & -> & _)|(f & bs' & E & L & _ & H)];
    try discriminate; auto.
  injection E as <-. apply IH in H; auto; rewrite scheduler_body_state;
    cbn [with_cursor bpm]; auto.
  unfold deadline_ok in *. cbn [with_cursor nextNoteTimeRef isPlaying bpm].
  rewrite Hc. destruct (nextNoteTimeRef s) as [| | |d]; try discriminate;
    try contradiction.
  destruct Hb as [->|Hb]; [simpl; auto|].
  destruct (bpm s) as [| | |t]; try contradiction.
  destruct Hb as [Hlo Hhi]. rewrite div_60_Fin by assumption. exact I.
Qed.

(** *** Termination *)

Lemma scheduler_loop_terminates_within t m now n :
  40 <= t -> t <= 240 ->
  forall s d,
    nextNoteTimeRef s = Fin d ->
    now + scheduleAheadTime - d <= inject_Z (Z.of_nat n) * (1 # 4) ->
    exists s' bs,
      scheduler_loop (S n) (Closure (Fin t) m) now s = Some (s', bs)
      /\ (length bs <= n)%nat.
Proof.
  intros Hlo Hhi. induction n as [|n IH]; intros s d Hd Hn;
    rewrite scheduler_loop_unfold, Hd; cbn [lt].
  - assert (E : Qltb d (now + scheduleAheadTime) = false).
    { apply Qltb_ge. change (inject_Z (Z.of_nat 0)) with 0 in Hn. lra. }
    rewrite E. exists s, []. split; [reflexivity|simpl; lia].
  - destruct (Qltb d (now + scheduleAheadTime)) eqn:E.
    + destruct (IH (fst (scheduler_body (Closure (Fin t) m) now s))
                  (d + 60 / t)) as (s' & bs & -> & Hlen).
      * rewrite scheduler_body_state. cbn [with_cursor nextNoteTimeRef c_bpm].
        rewrite Hd, div_60_Fin by assumption. reflexivity.
      * destruct (seconds_per_beat_bounds t Hlo Hhi) as [Hs _].
        rewrite Nat2Z.inj_succ in Hn. unfold Z.succ in Hn.
        rewrite inject_Z_plus in Hn. change (inject_Z 1) with 1 in Hn. lra.
      * eexists _, _. split; [reflexivity|simpl; lia].
    + exists s, []. split; [reflexivity|simpl; lia].
Qed.

Lemma iteration_bound_spec now d :
  now + scheduleAheadTime - d
  <= inject_Z (Z.of_nat (iteration_bound now d)) * (1 # 4).
Proof.
  unfold iteration_bound.
  set (x := 4 * (now + scheduleAheadTime - d)).
  assert (H1 : x <= inject_Z (Qceiling x)) by apply Qle_ceiling.
  assert (H2 : inject_Z (Qceiling x)
               <= inject_Z (Z.of_nat (Z.to_nat (Qceiling x)))).
  { rewrite <- Zle_Qle. lia. }
  unfold x in *. lra.
Qed.

(** Every reachable combination of tempo and deadline lets the loop
    return. *)
Lemma scheduler_loop_total c now s :
  bpm_ok (c_bpm c) -> nextNoteTimeRef s <> NegInf ->
  exists fuel s' bs, scheduler_loop fuel c now s = Some (s', bs).
Proof.
  intros Hb Hd. destruct (nextNoteTimeRef s) as [| | |d] eqn:E;
    try congruence.
  - exists 1%nat, s, []. simpl. rewrite E. reflexivity.
  - exists 1%nat, s, []. simpl. rewrite E. reflexivity.
  - destruct c as [b m]. cbn [c_bpm] in Hb.
    destruct Hb as [->|Hb].
    + exists 2%nat. rewrite scheduler_loop_unfold, E.
      destruct (lt d _); [|eauto].
      rewrite scheduler_loop_unfold, scheduler_body_state.
      cbn [with_cursor nextNoteTimeRef c_bpm]. rewrite E. cbn. eauto.
    + destruct b as [| | |t]; try contradiction. destruct Hb as [Hlo Hhi].
      destruct (scheduler_loop_terminates_within t m now
                  (iteration_bound now d) Hlo Hhi s d E
                  (iteration_bound_spec now d)) as (s' & bs & H & _).
      eauto.
Qed.

(** ** The invariant *)

Lemma meters_range m : In m meters -> (2 <= m <= 6)%Z.
Proof. unfold meters. simpl. intros H. intuition lia. Qed.

Lemma frame_fields a b c d s s' :
  s' = with_cursor a b c d s ->
  bpm s' = bpm s /\ isPlaying s' = isPlaying s
  /\ beatsPerMeasure s' = beatsPerMeasure s /\ volume s' = volume s
  /\ voiceEnabled s' = voiceEnabled s
  /\ audioContextRef s' = audioContextRef s
  /\ timerIdRef s' = timerIdRef s /\ volumeRef s' = volumeRef s
  /\ voiceEnabledRef s' = voiceEnabledRef s /\ timers s' = timers s
  /\ nextTimerId s' = nextTimerId s.
Proof. intros ->. repeat split. Qed.

(** A scheduler run started with no time-out pending, on the tempo and
    meter of the current render, re-establishes the invariant. *)
Lemma scheduler_inv fuel now s0 s' bs :
  audioContextRef s0 = true ->
  volumeRef s0 = volume s0 -> voiceEnabledRef s0 = voiceEnabled s0 ->
  In (beatsPerMeasure s0) meters ->
  (0 <= currentBeatRef s0 < beatsPerMeasure s0)%Z ->
  (0 <= currentBeat s0 < beatsPerMeasure s0)%Z ->
  bpm_ok (bpm s0) -> deadline_ok s0 ->
  timers s0 = ∅ -> isPlaying s0 = true ->
  scheduler fuel (closure_of s0) now s0 = Some (s', bs) ->
  inv s'.
Proof.
  intros Hctx Hvol Hvoice Hm Hr Hp Hb Hd Ht Hplay.
  unfold scheduler. rewrite Hctx. cbn [negb].
  destruct (scheduler_loop _ _ _ _) as [[s1 bs1]|] eqn:L; [|discriminate].
  intros [= <- <-].
  pose proof (meters_range _ Hm) as Hm'.
  pose proof (scheduler_loop_frame _ _ _ _ _ _ L) as F.
  apply frame_fields in F
    as (Fb & Fp & Fm & Fv & Fve & Fc & Fi & Fvr & Fver & Ft & Fn).
  assert (Hpos : (0 < c_beatsPerMeasure (closure_of s0))%Z) by (simpl; lia).
  destruct (scheduler_loop_range _ _ _ _ _ _ Hpos L Hr Hp) as [Hr' Hp'].
  pose proof (scheduler_loop_deadline_ok fuel (closure_of s0) now s0 s1 bs1
                eq_refl Hb L Hd) as Hd'.
  cbn [closure_of c_beatsPerMeasure] in Hr', Hp'.
  constructor; unfold deadline_ok, timers_ok in *; fields; try congruence.
  rewrite Fp, Hplay. exists (nextTimerId s1).
  split; [reflexivity|]. rewrite Ft, Ht, insert_empty.
  unfold closure_of, setTimeout. fields. congruence.
Qed.

Lemma effect_body_inv fuel now s0 s' bs :
  audioContextRef s0 = true ->
  volumeRef s0 = volume s0 -> voiceEnabledRef s0 = voiceEnabled s0 ->
  In (beatsPerMeasure s0) meters -> bpm_ok (bpm s0) ->
  timers s0 = ∅ ->
  match nextNoteTimeRef s0 with Fin _ | NaN => True | _ => False end ->
  effect_body fuel now s0 = Some (s', bs) ->
  inv s'.
Proof.
  intros Hctx Hvol Hvoice Hm Hb Ht Hd.
  pose proof (meters_range _ Hm) as Hm'.
  unfold effect_body. destruct (isPlaying s0) eqn:P.
  - rewrite Hctx. intros H.
    eapply scheduler_inv; [..|exact H]; unfold deadline_ok; fields; auto; lia.
  - intros [= <- <-].
    constructor; unfold timers_ok, deadline_ok;
      destruct (timerIdRef s0); fields; auto; try lia;
      try rewrite P; try rewrite Ht; try apply delete_empty; auto;
      destruct (nextNoteTimeRef s0); auto.
Qed.

Lemma with_hooks_self s :
  s = with_hooks (bpm s) (isPlaying s) (currentBeat s) (beatsPerMeasure s)
        (volume s) (voiceEnabled s) s.
Proof. destruct s; reflexivity. Qed.

Lemma rendered_refl s : inv s -> rendered s s.
Proof.
  intros I. exists (bpm s), (isPlaying s), (currentBeat s),
    (beatsPerMeasure s), (volume s), (voiceEnabled s).
  destruct I. split; [apply with_hooks_self|]. auto 10.
Qed.

Lemma handleBpmChange_rendered x s : inv s -> rendered s (handleBpmChange x s).
Proof.
  intros I. unfold handleBpmChange, setBpm.
  destruct (same (bpm s) _) eqn:E; [apply rendered_refl; assumption|].
  exists (JS.max 40 (JS.min 240 x)), (isPlaying s), (currentBeat s),
    (beatsPerMeasure s), (volume s), (voiceEnabled s).
  destruct I. split; [destruct s; reflexivity|].
  split; [congruence|]. auto using clamp_bpm_ok.
Qed.

Lemma handler_rendered e s : inv s -> wf_event e -> rendered s (handler e s).
Proof.
  intros I W.
  destruct e; cbn [handler]; auto using handleBpmChange_rendered, rendered_refl.
  - (* a meter button *)
    exists (bpm s), (isPlaying s), 0%Z, beats, (volume s), (voiceEnabled s).
    pose proof (meters_range _ W). destruct I.
    split; [destruct s; reflexivity|]. repeat split; auto; lia.
  - (* the volume slider *)
    unfold setVolume. destruct (same (volume s) parsed) eqn:E;
      [apply rendered_refl; assumption|].
    exists (bpm s), (isPlaying s), (currentBeat s), (beatsPerMeasure s),
      parsed, (voiceEnabled s).
    destruct I. split; [destruct s; reflexivity|].
    split; [auto|]. split; [congruence|]. auto.
  - (* the voice switch *)
    exists (bpm s), (isPlaying s), (currentBeat s), (beatsPerMeasure s),
      (volume s), (negb (voiceEnabled s)).
    destruct I. split; [destruct s; reflexivity|]. auto 10.
  - (* play / stop *)
    exists (bpm s), (negb (isPlaying s)), (currentBeat s), (beatsPerMeasure s),
      (volume s), (voiceEnabled s).
    destruct I. split; [destruct s; reflexivity|]. auto 10.
Qed.

(** The clean-up leaves no time-out pending. *)
Lemma cleanup_timers s :
  timers_ok s ->
  match timerIdRef s with
  | Some id => delete id (timers s)
  | None => timers s
  end = ∅.
Proof.
  unfold timers_ok. destruct (isPlaying s).
  - intros (id & -> & ->). apply delete_singleton_eq.
  - intros ->. destruct (timerIdRef s); [apply delete_empty|reflexivity].
Qed.

Lemma deps_unchanged old new :
  deps_changed old new = false ->
  isPlaying new = isPlaying old
  /\ same (bpm old) (bpm new) = true
  /\ beatsPerMeasure new = beatsPerMeasure old.
Proof.
  unfold deps_changed. rewrite negb_false_iff, !andb_true_iff.
  intros [[H1 H2] H3]. apply eqb_prop in H1. apply Z.eqb_eq in H3. auto.
Qed.

Lemma commit_inv fuel now old new s' bs :
  inv old -> rendered old new ->
  commit fuel now old new = Some (s', bs) ->
  inv s'.
Proof.
  intros I (b & p & cb & m & v & ve & -> & Hb & Hv & Hbok & Hm & Hcb).
  pose proof (cleanup_timers old (inv_timers _ I)) as Hclean.
  destruct I as [Ictx Ivol Ivoice Imeter Iref Ipub Ibpm Idl Itm].
  unfold commit.
  destruct (deps_changed old _) eqn:D.
  - (* the effect runs again *)
    unfold effect_cleanup. fields.
    assert (Hdl : match nextNoteTimeRef old with
                  | Fin _ | NaN => True | _ => False end).
    { unfold deadline_ok in Idl. destruct (nextNoteTimeRef old); auto. }
    destruct (same (volume old) v) eqn:Ev;
      destruct (Bool.eqb (voiceEnabled old) ve) eqn:Eve;
      destruct (timerIdRef old) eqn:Eid; fields;
      intros H; (eapply effect_body_inv; [..|exact H]); clear H;
      fields; auto;
      try (rewrite Hv by reflexivity; assumption);
      try (apply eqb_prop in Eve; congruence).
  - (* no dependency changed *)
    apply deps_unchanged in D as (Dp & Db & Dm). fields. subst p m.
    rewrite (Hb Db) in *.
    intros [= <- <-].
    constructor; unfold deadline_ok, timers_ok in *;
      destruct (same (volume old) v) eqn:Ev;
      destruct (Bool.eqb (voiceEnabled old) ve) eqn:Eve;
      fields; auto;
      try (rewrite Hv by reflexivity; assumption);
      try (apply eqb_prop in Eve; congruence).
Qed.

Lemma step_inv fuel now e s s' bs :
  inv s -> wf_event e -> step fuel now e s = Some (s', bs) -> inv s'.
Proof.
  intros I W. destruct e; cbn [step];
    try (apply commit_inv; [assumption|apply handler_rendered; assumption]).
  - (* a time-out fires *)
    destruct (timers s !! id) as [c|] eqn:L; [|intros [= <- <-]; assumption].
    destruct I as [Ictx Ivol Ivoice Imeter Iref Ipub Ibpm Idl Itm].
    unfold timers_ok in Itm. destruct (isPlaying s) eqn:P.
    + destruct Itm as (id' & Hid & Ht). rewrite Ht in L.
      apply lookup_singleton_Some in L as [<- <-].
      intros H. eapply scheduler_inv with (s0 := set_timers _ s);
        [..|exact H]; unfold deadline_ok in *; fields; auto.
      rewrite Ht. apply delete_singleton_eq.
    + rewrite Itm in L. discriminate.
  - (* an utterance is spoken *)
    intros [= <- <-]. destruct I.
    constructor; unfold deadline_ok, timers_ok in *; fields; auto.
Qed.

Lemma mounted_inv : inv mounted.
Proof.
  constructor; unfold deadline_ok, timers_ok, bpm_ok, meters; cbn; auto.
  - lia.
  - lia.
  - right. split; discriminate.
Qed.

(** The first commit produces [mounted] and emits nothing. *)
Lemma mount_initial fuel now : mount fuel now initial = Some (mounted, []).
Proof. reflexivity. Qed.

Theorem reachable_inv s : reachable s -> inv s.
Proof.
  induction 1; eauto using mounted_inv, step_inv.
Qed.

(** ** Fuel *)

Lemma scheduler_fuel fuel fuel' c now s r :
  scheduler fuel c now s = Some r -> (fuel <= fuel')%nat ->
  scheduler fuel' c now s = Some r.
Proof.
  unfold scheduler. destruct (negb _); [auto|].
  destruct (scheduler_loop fuel _ _ _) as [[s1 bs]|] eqn:E; [|discriminate].
  intros H Hle. rewrite (scheduler_loop_fuel _ _ _ _ _ _ E Hle). exact H.
Qed.

Lemma effect_body_fuel fuel fuel' now s r :
  effect_body fuel now s = Some r -> (fuel <= fuel')%nat ->
  effect_body fuel' now s = Some r.
Proof.
  unfold effect_body. destruct (isPlaying s); [apply scheduler_fuel|auto].
Qed.

Lemma step_fuel fuel fuel' now e s r :
  step fuel now e s = Some r -> (fuel <= fuel')%nat ->
  step fuel' now e s = Some r.
Proof.
  destruct e; cbn [step]; unfold commit;
    try (destruct (deps_changed _ _); [apply effect_body_fuel|auto]).
  - destruct (timers s !! id); [apply scheduler_fuel|auto].
  - auto.
Qed.

Lemma run_fuel fuel fuel' es s r :
  run fuel es s = Some r -> (fuel <= fuel')%nat -> run fuel' es s = Some r.
Proof.
  revert s r. induction es as [|[now e] es IH]; intros s r; cbn [run]; [auto|].
  destruct (step fuel now e s) as [[s1 bs1]|] eqn:E; [|discriminate].
  destruct (run fuel es s1) as [[s2 bs2]|] eqn:E2; [|discriminate].
  intros H Hle.
  rewrite (step_fuel _ _ _ _ _ _ E Hle), (IH _ _ E2 Hle). exact H.
Qed.

Lemma scheduler_total c now s :
  bpm_ok (c_bpm c) -> nextNoteTimeRef s <> NegInf ->
  exists fuel r, scheduler fuel c now s = Some r.
Proof.
  intros Hb Hd. destruct (scheduler_loop_total c now s Hb Hd)
    as (fuel & s' & bs & H).
  exists fuel. unfold scheduler. rewrite H. destruct (negb _); eauto.
Qed.

(** From a state that satisfies the invariant every event is handled with
    finitely many loop iterations. *)
Lemma step_total now e s :
  inv s -> wf_event e -> exists fuel r, step fuel now e s = Some r.
Proof.
  intros I W.
  assert (C : forall new, rendered s new ->
                exists fuel r, commit fuel now s new = Some r).
  { intros new (b & p & cb & m & v & ve & -> & _ & _ & Hb & _).
    unfold commit. destruct (deps_changed _ _); [|exists O; eauto].
    unfold effect_body.
    match goal with |- context [isPlaying ?x] => set (s3 := x) end.
    assert (Eb : bpm s3 = b).
    { unfold s3, effect_cleanup.
      destruct (same _ _), (Bool.eqb _ _), (timerIdRef _); reflexivity. }
    destruct (isPlaying s3); [|exists O; eauto].
    apply scheduler_total; fields; [congruence|].
    destruct (audioContextRef s3); fields; [discriminate|].
    unfold s3, effect_cleanup.
    destruct (same _ _), (Bool.eqb _ _), (timerIdRef _); fields;
      destruct I as [_ _ _ _ _ _ _ Hd _]; unfold deadline_ok in Hd;
      destruct (nextNoteTimeRef s); try discriminate; contradiction. }
  destruct e; cbn [step]; try (apply C, handler_rendered; assumption).
  - destruct (timers s !! id) as [c|] eqn:L; [|exists O; eauto].
    destruct I as [_ _ _ _ _ _ Hb Hd Ht]. unfold timers_ok in Ht.
    destruct (isPlaying s).
    + destruct Ht as (id' & _ & Ht). rewrite Ht in L.
      apply lookup_singleton_Some in L as [_ <-].
      apply scheduler_total; fields; [assumption|].
      unfold deadline_ok in Hd. destruct (nextNoteTimeRef s);
        try discriminate; contradiction.
    + rewrite Ht in L. discriminate.
  - exists O. eauto.
Qed.

Lemma run_total es s :
  inv s -> Forall (fun ne => wf_event (snd ne)) es ->
  exists fuel r, run fuel es s = Some r.
Proof.
  revert s. induction es as [|[now e] es IH]; intros s I W.
  - exists O. simpl. eauto.
  - inversion W as [|? ? We Wes]; subst. cbn [snd] in We.
    destruct (step_total now e s I We) as (f1 & [s1 bs1] & H1).
    destruct (IH s1 (step_inv _ _ _ _ _ _ I We H1) Wes) as (f2 & [s2 bs2] & H2).
    exists (Nat.max f1 f2). cbn [run].
    rewrite (step_fuel _ (Nat.max f1 f2) _ _ _ _ H1) by lia.
    rewrite (run_fuel _ (Nat.max f1 f2) _ _ _ H2) by lia. eauto.
Qed.

(** ** Where the beats of a step come from *)

Lemma scheduler_beats fuel c now s s' bs :
  scheduler fuel c now s = Some (s', bs) ->
  (bs = [] /\ s' = s)
  \/ (exists s1, scheduler_loop fuel c now s = Some (s1, bs)
                 /\ s' = setTimeout c s1).
Proof.
  unfold scheduler. destruct (negb _).
  - intros [= <- <-]. auto.
  - destruct (scheduler_loop _ _ _ _) as [[s1 bs1]|]; [|discriminate].
    intros [= <- <-]. eauto.
Qed.

(** Every beat of a step is emitted by one run of the loop, and the state
    the loop starts from already has the refs the step ends with. *)
Lemma step_beats fuel now e s s' bs :
  step fuel now e s = Some (s', bs) ->
  bs = []
  \/ exists c s0 s1,
       scheduler_loop fuel c now s0 = Some (s1, bs)
       /\ s' = setTimeout c s1
       /\ volumeRef s0 = volumeRef s'
       /\ voiceEnabledRef s0 = voiceEnabledRef s'
       /\ (currentBeatRef s0 = 0%Z \/ currentBeatRef s0 = currentBeatRef s).
Proof.
  assert (S : forall c s0 r,
             (currentBeatRef s0 = 0%Z \/ currentBeatRef s0 = currentBeatRef s) ->
             scheduler fuel c now s0 = Some r ->
             snd r = []
             \/ exists c s0 s1,
                  scheduler_loop fuel c now s0 = Some (s1, snd r)
                  /\ fst r = setTimeout c s1
                  /\ volumeRef s0 = volumeRef (fst r)
                  /\ voiceEnabledRef s0 = voiceEnabledRef (fst r)
                  /\ (currentBeatRef s0 = 0%Z
                      \/ currentBeatRef s0 = currentBeatRef s)).
  { intros c s0 [s2 bs2] Hk H.
    apply scheduler_beats in H as [[-> _]|(s1 & L & ->)]; [left; reflexivity|].
    right. exists c, s0, s1. cbn [fst snd].
    pose proof (scheduler_loop_frame _ _ _ _ _ _ L) as F.
    apply frame_fields in F
      as (_ & _ & _ & _ & _ & _ & _ & Fvr & Fver & _ & _).
    fields. auto. }
  destruct e; cbn [step]; unfold commit;
    try (destruct (deps_changed _ _); [|intros [= <- <-]; left; reflexivity];
         unfold effect_body;
         match goal with |- context [isPlaying ?x] => destruct (isPlaying x) end;
         [|intros [= <- <-]; left; reflexivity];
         intros H; apply S in H; [exact H|left; reflexivity]).
  - destruct (timers s !! id); [|intros [= <- <-]; left; reflexivity].
    intros H; apply S in H; [exact H|right; reflexivity].
  - intros [= <- <-]. left; reflexivity.
Qed.

Lemma step_accent fuel now e s s' bs :
  step fuel now e s = Some (s', bs) -> Forall accent_ok bs.
Proof.
  intros H. apply step_beats in H as [->|(c & s0 & s1 & L & _)];
    [constructor|]. eapply scheduler_loop_accent, L.
Qed.

Lemma step_emitted fuel now e s s' bs :
  step fuel now e s = Some (s', bs) ->
  Forall (emitted_with (volumeRef s') (voiceEnabledRef s')) bs.
Proof.
  intros H. apply step_beats in H
    as [->|(c & s0 & s1 & L & _ & <- & <- & _)]; [constructor|].
  eapply scheduler_loop_emitted, L.
Qed.

(** While the cursor points at beat 0, the first beat emitted is beat 0,
    accented. *)
Lemma scheduler_first fuel c now s s' bs :
  currentBeatRef s = 0%Z ->
  scheduler fuel c now s = Some (s', bs) -> first_is_downbeat s' bs.
Proof.
  intros Hz H. apply scheduler_beats in H as [[-> ->]|(s1 & L & ->)];
    [exact Hz|].
  apply scheduler_loop_inv in L
    as [(_ & -> & ->)|(f & bs' & _ & _ & -> & _)]; [exact Hz|].
  rewrite scheduler_body_beat. cbn. rewrite Hz. auto.
Qed.

Lemma effect_body_first fuel now s s' bs :
  effect_body fuel now s = Some (s', bs) -> first_is_downbeat s' bs.
Proof.
  unfold effect_body. destruct (isPlaying s).
  - apply scheduler_first. reflexivity.
  - intros [= <- <-]. reflexivity.
Qed.

Lemma handler_currentBeatRef e s : currentBeatRef (handler e s) = currentBeatRef s.
Proof.
  destruct e; cbn [handler]; unfold handleBpmChange, setBpm, setVolume;
    repeat match goal with |- context [same ?a ?b] => destruct (same a b) end;
    reflexivity.
Qed.

Lemma deps_changed_refl s : deps_changed s s = false.
Proof.
  unfold deps_changed. rewrite eqb_reflx, same_refl, Z.eqb_refl. reflexivity.
Qed.

Lemma step_first_beat fuel now e s s' bs :
  (currentBeatRef s = 0%Z \/ deps_changed s (handler e s) = true) ->
  step fuel now e s = Some (s', bs) ->
  first_is_downbeat s' bs.
Proof.
  intros Hk.
  assert (C : commit fuel now s (handler e s) = Some (s', bs) ->
              first_is_downbeat s' bs).
  { unfold commit. destruct (deps_changed s (handler e s)).
    - apply effect_body_first.
    - destruct Hk as [Hk|Hk]; [|discriminate].
      intros [= <- <-]. unfold first_is_downbeat.
      destruct (same _ _), (Bool.eqb _ _); fields;
        rewrite handler_currentBeatRef; exact Hk. }
  destruct e; cbn [step]; try exact C; cbn [handler] in Hk;
    rewrite deps_changed_refl in Hk; (destruct Hk as [Hk|Hk]; [|discriminate]).
  - destruct (timers s !! id); [|intros [= <- <-]; exact Hk].
    apply scheduler_first. exact Hk.
  - intros [= <- <-]. exact Hk.
Qed.

(** ** What a step does to the hook state *)

Lemma scheduler_hooks fuel c now s s' bs :
  scheduler fuel c now s = Some (s', bs) ->
  bpm s' = bpm s /\ isPlaying s' = isPlaying s
  /\ beatsPerMeasure s' = beatsPerMeasure s /\ volume s' = volume s
  /\ voiceEnabled s' = voiceEnabled s.
Proof.
  intros H. apply scheduler_beats in H as [[_ ->]|(s1 & L & ->)]; [auto 10|].
  apply scheduler_loop_frame, frame_fields in L
    as (Fb & Fp & Fm & Fv & Fve & _). fields. auto 10.
Qed.

Lemma effect_body_hooks fuel now s s' bs :
  effect_body fuel now s = Some (s', bs) ->
  bpm s' = bpm s /\ isPlaying s' = isPlaying s
  /\ beatsPerMeasure s' = beatsPerMeasure s /\ volume s' = volume s
  /\ voiceEnabled s' = voiceEnabled s
  /\ volumeRef s' = volumeRef s /\ voiceEnabledRef s' = voiceEnabledRef s.
Proof.
  unfold effect_body.
  destruct (isPlaying s) eqn:P; [destruct (audioContextRef s)|].
  1,2: intros H; apply scheduler_beats in H as [[_ ->]|(s1 & L & ->)];
    [fields; auto 10|];
    apply scheduler_loop_frame, frame_fields in L
      as (Fb & Fp & Fm & Fv & Fve & _ & _ & Fvr & Fver & _);
    fields; repeat split; congruence.
  intros [= <- <-]. destruct (timerIdRef s); fields; auto 10.
Qed.

(** The state the effects of a commit start from. *)
Lemma commit_unfold fuel now old new :
  commit fuel now old new =
  let s3 :=
    with_hooks (bpm new) (isPlaying new) (currentBeat new)
      (beatsPerMeasure new) (volume new) (voiceEnabled new)
      (State (bpm new) (isPlaying new) (currentBeat new)
         (beatsPerMeasure new) (volume new) (voiceEnabled new)
         (audioContextRef new) (nextNoteTimeRef new) (timerIdRef new)
         (currentBeatRef new)
         (if same (volume old) (volume new) then volumeRef new
          else volume new)
         (if Bool.eqb (voiceEnabled old) (voiceEnabled new)
          then voiceEnabledRef new else voiceEnabled new)
         (if deps_changed old new then
            match timerIdRef new with
            | Some id => delete id (timers new)
            | None => timers new
            end
          else timers new)
         (nextTimerId new)
         (if deps_changed old new then [] else speechQueue new)) in
  if deps_changed old new then effect_body fuel now s3 else Some (s3, []).
Proof.
  unfold commit, effect_cleanup.
  destruct new. fields.
  destruct (deps_changed _ _), (same _ _), (Bool.eqb _ _), timerIdRef0;
    reflexivity.
Qed.

Lemma step_hooks fuel now e s s' bs :
  step fuel now e s = Some (s', bs) ->
  bpm s' = bpm (handler e s) /\ isPlaying s' = isPlaying (handler e s)
  /\ beatsPerMeasure s' = beatsPerMeasure (handler e s)
  /\ volume s' = volume (handler e s)
  /\ voiceEnabled s' = voiceEnabled (handler e s).
Proof.
  assert (C : commit fuel now s (handler e s) = Some (s', bs) ->
              bpm s' = bpm (handler e s) /\ isPlaying s' = isPlaying (handler e s)
              /\ beatsPerMeasure s' = beatsPerMeasure (handler e s)
              /\ volume s' = volume (handler e s)
              /\ voiceEnabled s' = voiceEnabled (handler e s)).
  { rewrite commit_unfold. cbv zeta. destruct (deps_changed _ _).
    - intros H. apply effect_body_hooks in H. fields. tauto.
    - intros [= <- <-]. fields. auto 10. }
  destruct e; cbn [step]; try exact C; cbn [handler].
  - destruct (timers s !! id); [|intros [= <- <-]; auto 10].
    intros H. apply scheduler_hooks in H. fields. exact H.
  - intros [= <- <-]. fields. auto 10.
Qed.

Lemma handler_refs e s :
  volumeRef (handler e s) = volumeRef s
  /\ voiceEnabledRef (handler e s) = voiceEnabledRef s
  /\ (same (volume s) (volume (handler e s)) = true ->
      volume (handler e s) = volume s).
Proof.
  destruct e; cbn [handler]; unfold handleBpmChange, setBpm, setVolume;
    repeat match goal with |- context [same ?a ?b] =>
             destruct (same a b) eqn:? end;
    fields; auto; repeat split; congruence.
Qed.

(** Both refs follow their state on every step, whatever the event. *)
Lemma step_synced fuel now e s s' bs :
  volumeRef s = volume s -> voiceEnabledRef s = voiceEnabled s ->
  step fuel now e s = Some (s', bs) ->
  volumeRef s' = volume s' /\ voiceEnabledRef s' = voiceEnabled s'.
Proof.
  intros Hv Hve.
  assert (C : commit fuel now s (handler e s) = Some (s', bs) ->
              volumeRef s' = volume s' /\ voiceEnabledRef s' = voiceEnabled s').
  { destruct (handler_refs e s) as (Rv & Rve & Rs).
    rewrite commit_unfold. cbv zeta.
    destruct (same (volume s) (volume (handler e s))) eqn:Ev;
      destruct (Bool.eqb (voiceEnabled s) (voiceEnabled (handler e s))) eqn:Eve;
      try apply eqb_prop in Eve;
      (destruct (deps_changed _ _);
       [intros H; apply effect_body_hooks in H
          as (_ & _ & _ & -> & -> & -> & ->)
       |intros [= <- <-]]);
      fields; split; try reflexivity; try congruence;
      rewrite Rs by reflexivity; congruence. }
  destruct e; cbn [step]; try exact C.
  - destruct (timers s !! id); [|intros [= <- <-]; auto].
    intros H. pose proof (scheduler_hooks _ _ _ _ _ _ H) as (_ & _ & _ & -> & ->).
    apply scheduler_beats in H as [[_ ->]|(s1 & L & ->)]; [auto|].
    apply scheduler_loop_frame, frame_fields in L
      as (_ & _ & _ & _ & _ & _ & _ & Fvr & Fver & _).
    fields. split; congruence.
  - intros [= <- <-]. fields. auto.
Qed.

(** ** Runs *)

Lemma run_cons fuel now e es s s' bs :
  run fuel ((now, e) :: es) s = Some (s', bs) ->
  exists s1 bs1 bs2,
    step fuel now e s = Some (s1, bs1)
    /\ run fuel es s1 = Some (s', bs2)
    /\ bs = bs1 ++ bs2.
Proof.
  cbn [run]. destruct (step fuel now e s) as [[s1 bs1]|]; [|discriminate].
  destruct (run fuel es s1) as [[s2 bs2]|] eqn:E; [|discriminate].
  intros [= <- <-]. exists s1, bs1, bs2. auto.
Qed.

Lemma run_first_beat fuel es s s' bs :
  currentBeatRef s = 0%Z ->
  run fuel es s = Some (s', bs) -> first_is_downbeat s' bs.
Proof.
  revert s bs. induction es as [|[now e] es IH]; intros s bs Hz H.
  - injection H as <- <-. exact Hz.
  - apply run_cons in H as (s1 & bs1 & bs2 & H1 & H2 & ->).
    apply step_first_beat in H1; [|left; exact Hz].
    destruct bs1 as [|b bs1]; [|exact H1].
    apply (IH _ _ H1 H2).
Qed.

Lemma run_silent fuel es s s' bs :
  volumeRef s = volume s -> voiceEnabledRef s = voiceEnabled s ->
  voiceEnabled s = false ->
  forallb (fun ne => negb (is_ClickVoice (snd ne))) es = true ->
  run fuel es s = Some (s', bs) ->
  Forall (fun b => b_speech b = None) bs.
Proof.
  revert s bs. induction es as [|[now e] es IH]; intros s bs Hv Hve Hoff Hes H.
  - injection H as <- <-. constructor.
  - apply run_cons in H as (s1 & bs1 & bs2 & H1 & H2 & ->).
    cbn [forallb snd] in Hes. apply andb_true_iff in Hes as [He Hes].
    destruct (step_synced _ _ _ _ _ _ Hv Hve H1) as [Hv1 Hve1].
    destruct (step_hooks _ _ _ _ _ _ H1) as (_ & _ & _ & _ & Hk).
    assert (Hoff1 : voiceEnabled s1 = false).
    { rewrite Hk. destruct e; try discriminate; cbn [handler];
        unfold handleBpmChange, setBpm, setVolume;
        repeat match goal with |- context [same ?a ?b] =>
                 destruct (same a b) end; exact Hoff. }
    apply Forall_app. split; [|eapply IH; eauto].
    apply step_emitted in H1. rewrite Hve1, Hoff1 in H1.
    eapply Forall_impl; [exact H1|].
    intros b (_ & _ & Hs). destruct (b_speech b); [|reflexivity].
    assert (false = true) by (apply Hs; eauto). discriminate.
Qed.

Lemma run_reachable fuel es s s' bs :
  reachable s -> Forall (fun ne => wf_event (snd ne)) es ->
  run fuel es s = Some (s', bs) -> reachable s'.
Proof.
  revert s bs. induction es as [|[now e] es IH]; intros s bs Hs W H.
  - injection H as <- _. exact Hs.
  - apply run_cons in H as (s1 & bs1 & bs2 & H1 & H2 & _).
    inversion W as [|? ? We Wes]; subst.
    apply (IH s1 bs2 (reach_step _ _ _ _ _ _ Hs We H1) Wes H2).
Defined.

(** ** Sessions *)


Lemma cursors_adjacent c n k i a a' :
  cursors c n k !! i = Some a -> cursors c n k !! S i = Some a' ->
  a = advance_n c i k /\ a' = advance c a.
Proof.
  intros H H'.
  assert (Hi : (S i < n)%nat).
  { apply lookup_lt_Some in H'. rewrite cursors_length in H'. exact H'. }
  rewrite cursors_lookup in H, H' by lia.
  injection H as <-. injection H' as <-. split; [reflexivity|].
  change (advance_n c (S i) k = advance c (advance_n c i k)).
  replace (S i) with (i + 1)%nat by lia. rewrite advance_n_add. reflexivity.
Qed.

(** A step that is not a restart runs on the tempo and meter of the current
    render and moves the cursor only through loop iterations. *)
Lemma step_session fuel now e s s1 bs1 :
  inv s -> wf_event e -> deps_changed s (handler e s) = false ->
  step fuel now e s = Some (s1, bs1) ->
  closure_of s1 = closure_of s /\ isPlaying s1 = isPlaying s
  /\ map beat_cursor bs1 = cursors (closure_of s) (length bs1) (cursor_of s)
  /\ cursor_of s1 = advance_n (closure_of s) (length bs1) (cursor_of s).
Proof.
  intros I W D H.
  destruct (step_hooks _ _ _ _ _ _ H) as (Hb & Hp & Hm & _).
  destruct (handler_rendered e s I W)
    as (b & p & cb & m & v & ve & E & Eb & _).
  destruct (deps_unchanged _ _ D) as (Dp & Db & Dm).
  rewrite E in Db, Dp, Dm. fields. rewrite (Eb Db) in *. subst p m.
  assert (Hc : closure_of s1 = closure_of s).
  { unfold closure_of. rewrite Hb, Hm, E. reflexivity. }
  split; [exact Hc|]. split; [rewrite Hp, E; reflexivity|].
  assert (C : commit fuel now s (handler e s) = Some (s1, bs1) ->
              map beat_cursor bs1
              = cursors (closure_of s) (length bs1) (cursor_of s)
              /\ cursor_of s1
                 = advance_n (closure_of s) (length bs1) (cursor_of s)).
  { rewrite commit_unfold. cbv zeta. rewrite D, E.
    intros [= <- <-]. split; reflexivity. }
  revert H. clear E. destruct e; cbn [step]; try exact C.
  - destruct (timers s !! id) as [c|] eqn:L;
      [|intros [= <- <-]; split; reflexivity].
    pose proof (inv_timers _ I) as T. unfold timers_ok in T.
    destruct (isPlaying s).
    + destruct T as (id' & _ & T). rewrite T in L.
      apply lookup_singleton_Some in L as [_ <-].
      intros H. apply scheduler_beats in H as [[-> ->]|(s2 & L & ->)];
        [split; reflexivity|].
      apply scheduler_loop_cursor in L. exact L.
    + rewrite T in L. discriminate.
  - intros [= <- <-]. split; reflexivity.
Qed.

Lemma session_trajectory fuel s bs s' :
  inv s -> session fuel s bs s' ->
  inv s' /\ closure_of s' = closure_of s /\ isPlaying s' = isPlaying s
  /\ trajectory bs s'
     = cursors (closure_of s) (S (length bs)) (cursor_of s).
Proof.
  intros I H. induction H as [s|now e s s1 s2 bs1 bs2 W D H1 H2 IH].
  - repeat split; try reflexivity; apply I.
  - destruct (step_session _ _ _ _ _ _ I W D H1) as (Hc & Hp & Hbs & Hk).
    destruct (IH (step_inv _ _ _ _ _ _ I W H1)) as (I2 & Hc2 & Hp2 & Ht).
    split; [exact I2|]. split; [congruence|]. split; [congruence|].
    unfold trajectory in *. rewrite map_app, <- app_assoc, Ht, Hbs, Hc, Hk.
    rewrite length_app.
    replace (S (length bs1 + length bs2))
      with (length bs1 + S (length bs2))%nat by lia.
    rewrite cursors_add. reflexivity.
Qed.

(** One iteration never moves the deadline back, and moves it forward when
    the tempo is a number. *)
Lemma advance_deadline c k :
  bpm_ok (c_bpm c) ->
  match snd k with Fin _ | NaN => True | _ => False end ->
  lt (snd (advance c k)) (snd k) = false
  /\ match snd (advance c k) with Fin _ | NaN => True | _ => False end
  /\ (within 40 240 (c_bpm c) ->
      snd k <> NaN -> le (snd k) (snd (advance c k))).
Proof.
  intros Hb Hk. unfold advance. cbn [snd fst].
  destruct (snd k) as [| | |d]; try contradiction.
  - cbn. split; [reflexivity|]. split; [exact I|]. congruence.
  - destruct Hb as [->|Hb].
    + cbn. split; [reflexivity|]. split; [exact I|]. contradiction.
    + destruct (c_bpm c) as [| | |t]; try contradiction.
      destruct Hb as [Hlo Hhi].
      destruct (seconds_per_beat_bounds t Hlo Hhi) as [Hs _].
      rewrite div_60_Fin by assumption. cbn [add lt le].
      split; [apply Qltb_ge; lra|]. split; [exact I|]. intros _ _. lra.
Qed.

Lemma advance_n_deadline_class c n k :
  bpm_ok (c_bpm c) ->
  match snd k with Fin _ | NaN => True | _ => False end ->
  match snd (advance_n c n k) with Fin _ | NaN => True | _ => False end.
Proof.
  intros Hb. revert k. induction n as [|n IH]; intros k Hk; [exact Hk|].
  cbn [advance_n]. apply IH. apply advance_deadline; assumption.
Qed.

Lemma lookup_map {A B} (f : A -> B) (l : list A) i :
  map f l !! i = option_map f (l !! i).
Proof.
  revert i. induction l as [|a l IH]; intros [|i]; simpl; auto.
Qed.


(** ** Starting *)

Lemma scheduler_loop_start fuel c now s t :
  nextNoteTimeRef s = Fin now -> c_bpm c = Fin t -> 40 <= t -> t <= 240 ->
  scheduler_loop (S (S fuel)) c now s
  = Some (fst (scheduler_body c now s), [snd (scheduler_body c now s)]).
Proof.
  intros Hd Hc Hlo Hhi.
  destruct (seconds_per_beat_bounds t Hlo Hhi) as [Hs _].
  rewrite scheduler_loop_unfold, Hd. cbn [lt].
  replace (Qltb now (now + scheduleAheadTime)) with true
    by (symmetry; apply Qltb_lt; unfold scheduleAheadTime; lra).
  rewrite scheduler_loop_unfold, scheduler_body_state.
  cbn [with_cursor nextNoteTimeRef]. rewrite Hd, Hc, div_60_Fin by assumption.
  cbn [add lt].
  replace (Qltb (now + 60 / t) (now + scheduleAheadTime)) with false
    by (symmetry; apply Qltb_ge; unfold scheduleAheadTime; lra).
  reflexivity.
Qed.

(** A restart while playing, at a tempo in range: beat 0 is emitted at
    once with the current time as its deadline, and the cursor is left one
    iteration later. *)
Lemma commit_start fuel now old new t :
  inv old -> rendered old new -> deps_changed old new = true ->
  isPlaying new = true -> bpm new = Fin t -> 40 <= t -> t <= 240 ->
  exists s' b,
    commit (S (S fuel)) now old new = Some (s', [b])
    /\ beat_cursor b = (0%Z, Fin now) /\ b_isAccent b = true
    /\ cursor_of s' = advance (closure_of new) (0%Z, Fin now)
    /\ currentBeat s' = 0%Z.
Proof.
  intros I (b & p & cb & m & v & ve & -> & _) D P B Hlo Hhi.
  fields. subst p b.
  rewrite commit_unfold. cbv zeta. rewrite D.
  unfold effect_body, scheduler. fields. rewrite (inv_ctx _ I). cbn [negb].
  erewrite scheduler_loop_start; [|reflexivity|reflexivity|assumption..].
  eexists _, _. split; [reflexivity|].
  rewrite scheduler_body_beat, scheduler_body_state. unfold advance. fields.
  cbn [beat_cursor b_index b_deadline b_isAccent cursor_of fst snd Z.eqb].
  fields. auto.
Qed.

(** ** The claims *)

Lemma demo_playing_reachable : reachable demo_playing.
Proof.
  eapply (run_reachable 4 demo_events mounted _ _ reach_mount).
  - repeat constructor.
  - vm_compute. reflexivity.
Defined.

(** Meter 4 at 120 bpm, started at time 0 and polled just before each
    beat is due: beats 0, 1, 2, 3, 0 with deadlines 0, 0.5, 1, 1.5 and 2
    seconds, the first and the last accented. *)
Example four_four_at_120 :
  exists s bs,
    run 3 [(0, ClickPlay); (0.45, TimerFires 1); (0.95, TimerFires 2);
           (1.45, TimerFires 3); (1.95, TimerFires 4)] mounted
    = Some (s, bs)
    /\ map (fun b => (b_index b, b_isAccent b)) bs
       = [(0, true); (1, false); (2, false); (3, false); (0, true)]%Z
    /\ forallb (fun p => deadline_is (fst p) (snd p))
         (combine bs [0; 0.5; 1; 1.5; 2]) = true
    /\ cursor_of s = (1%Z, Fin (0 + 60 / 120 + 60 / 120 + 60 / 120
                                + 60 / 120 + 60 / 120)).
Proof.
  eexists _, _. split; [vm_compute; reflexivity|].
  split; [reflexivity|]. split; vm_compute; reflexivity.
Qed.

(** A poll that comes late catches up: after a stall until 1.3 s the beats
    due at 0.5 s and 1 s are emitted in one loop run. *)
Example catch_up_after_stall :
  exists s bs,
    run 4 [(0, ClickPlay); (1.3, TimerFires 1)] mounted = Some (s, bs)
    /\ map b_index bs = [0; 1; 2]%Z
    /\ forallb (fun p => deadline_is (fst p) (snd p))
         (combine bs [0; 0.5; 1]) = true.
Proof.
  eexists _, _. split; [vm_compute; reflexivity|].
  split; [reflexivity|vm_compute; reflexivity].
Qed.

(** C4. Every beat emitted in any run carries the accent flag
    [index == 0]: that flag is the argument of [playTick] (and selects the
    1000 Hz tone), and the announcer raises its pitch for the same
    beats, speaking the 1-based number of the beat. *)
Theorem accent_invariant fuel es s s' bs :
  run fuel es s = Some (s', bs) -> Forall accent_ok bs.
Proof.
  revert s bs. induction es as [|[now e] es IH]; intros s bs H.
  - injection H as <- <-. constructor.
  - apply run_cons in H as (s1 & bs1 & bs2 & H1 & H2 & ->).
    apply Forall_app. split; [eapply step_accent|eapply IH]; eauto.
Qed.

Lemma accent_invariant_witness :
  exists s' b0 b1,
    run 4 demo_events mounted = Some (s', [b0; b1])
    /\ b_index b0 = 0%Z /\ b_index b1 = 1%Z
    /\ Forall accent_ok [b0; b1].
Proof.
  eexists _, _, _. split; [vm_compute; reflexivity|].
  split; [reflexivity|]. split; [reflexivity|].
  eapply (accent_invariant 4 demo_events mounted). vm_compute. reflexivity.
Defined.

(** C10. In every reachable state the published beat index lies in
    [0, beatsPerMeasure), and the meter is one of the five buttons. *)
Theorem published_beat_in_range s :
  reachable s ->
  (0 <= currentBeat s < beatsPerMeasure s)%Z /\ In (beatsPerMeasure s) meters.
Proof.
  intros R. apply reachable_inv in R. destruct R. auto.
Qed.

Lemma published_beat_in_range_witness :
  (0 <= currentBeat demo_playing < beatsPerMeasure demo_playing)%Z
  /\ In (beatsPerMeasure demo_playing) meters.
Proof. exact (published_beat_in_range demo_playing demo_playing_reachable). Defined.

(** C7. The volume and the voice switch are read when a beat is emitted:
    every beat of a step from a reachable state carries the volume and the
    voice setting of the state the step ends in, which are the ones the
    handler of that step set; and once the voice is switched off, no beat is
    announced until the switch is clicked again, while the utterances
    already queued stay queued. *)
Theorem volume_and_voice_read_at_emission s :
  reachable s ->
  (forall fuel now e s' bs,
     step fuel now e s = Some (s', bs) ->
     volume s' = volume (handler e s)
     /\ voiceEnabled s' = voiceEnabled (handler e s)
     /\ Forall (emitted_with (volume s') (voiceEnabled s')) bs)
  /\ (forall fuel now s1 bs1 es s2 bs2,
        voiceEnabled s = true ->
        step fuel now ClickVoice s = Some (s1, bs1) ->
        forallb (fun ne => negb (is_ClickVoice (snd ne))) es = true ->
        run fuel es s1 = Some (s2, bs2) ->
        bs1 = [] /\ speechQueue s1 = speechQueue s
        /\ Forall (fun b => b_speech b = None) bs2).
Proof.
  intros R. apply reachable_inv in R.
  pose proof (inv_volume _ R) as Hv. pose proof (inv_voice _ R) as Hve.
  split.
  - intros fuel now e s' bs H.
    destruct (step_hooks _ _ _ _ _ _ H) as (_ & _ & _ & Hk & Hke).
    destruct (step_synced _ _ _ _ _ _ Hv Hve H) as [Hv' Hve'].
    split; [exact Hk|]. split; [exact Hke|].
    rewrite <- Hv', <- Hve'. eapply step_emitted, H.
  - intros fuel now s1 bs1 es s2 bs2 Hon H1 Hes H2.
    destruct (step_synced _ _ _ _ _ _ Hv Hve H1) as [Hv1 Hve1].
    destruct (step_hooks _ _ _ _ _ _ H1) as (_ & _ & _ & _ & Hk).
    cbn [handler] in Hk. fields. rewrite Hon in Hk. cbn [negb] in Hk.
    assert (E : bs1 = [] /\ speechQueue s1 = speechQueue s).
    { revert H1. cbn [step handler]. rewrite commit_unfold. cbv zeta.
      replace (deps_changed s (setVoiceEnabled (negb (voiceEnabled s)) s))
        with false.
      - intros [= <- <-]. fields. auto.
      - symmetry. rewrite <- (deps_changed_refl s). reflexivity. }
    destruct E as [-> Eq]. split; [reflexivity|]. split; [exact Eq|].
    eapply run_silent; eauto.
Qed.

Lemma volume_and_voice_read_at_emission_witness :
  (forall fuel now e s' bs,
     step fuel now e demo_playing = Some (s', bs) ->
     volume s' = volume (handler e demo_playing)
     /\ voiceEnabled s' = voiceEnabled (handler e demo_playing)
     /\ Forall (emitted_with (volume s') (voiceEnabled s')) bs)
  /\ (forall fuel now s1 bs1 es s2 bs2,
        voiceEnabled demo_playing = true ->
        step fuel now ClickVoice demo_playing = Some (s1, bs1) ->
        forallb (fun ne => negb (is_ClickVoice (snd ne))) es = true ->
        run fuel es s1 = Some (s2, bs2) ->
        bs1 = [] /\ speechQueue s1 = speechQueue demo_playing
        /\ Forall (fun b => b_speech b = None) bs2).
Proof.
  exact (volume_and_voice_read_at_emission demo_playing
           demo_playing_reachable).
Defined.

(** C5. Stopping a running metronome emits nothing, clears the pending
    time-out (no time-out is left, so no later firing can emit), empties
    the queue of utterances not yet spoken, and publishes beat 0. *)
Theorem stop_releases_everything s fuel now :
  reachable s -> isPlaying s = true ->
  exists s',
    step fuel now ClickPlay s = Some (s', [])
    /\ isPlaying s' = false
    /\ timers s' = ∅ /\ timerIdRef s' = None
    /\ speechQueue s' = []
    /\ currentBeat s' = 0%Z /\ currentBeatRef s' = 0%Z
    /\ forall fuel' now' id,
         step fuel' now' (TimerFires id) s' = Some (s', []).
Proof.
  intros R P. apply reachable_inv in R.
  pose proof (inv_timers _ R) as T. unfold timers_ok in T. rewrite P in T.
  destruct T as (id & Hid & Ht).
  cbn [step handler]. rewrite commit_unfold. cbv zeta. fields.
  unfold deps_changed. fields. rewrite P. cbn [negb Bool.eqb andb].
  unfold effect_body. fields. rewrite Hid, Ht, delete_singleton_eq.
  eexists. split; [reflexivity|]. fields.
  repeat (split; [try reflexivity; apply delete_empty|]).
  intros fuel' now' id'. cbn [step]. fields. rewrite delete_empty.
  rewrite lookup_empty. reflexivity.
Qed.

Lemma stop_releases_everything_witness :
  isPlaying demo_playing = true
  /\ timers demo_playing <> ∅
  /\ exists s',
       step 0 1 ClickPlay demo_playing = Some (s', [])
       /\ isPlaying s' = false
       /\ timers s' = ∅ /\ timerIdRef s' = None
       /\ speechQueue s' = []
       /\ currentBeat s' = 0%Z /\ currentBeatRef s' = 0%Z
       /\ forall fuel' now' id,
            step fuel' now' (TimerFires id) s' = Some (s', []).
Proof.
  split; [reflexivity|]. split; [vm_compute; discriminate|].
  apply (stop_releases_everything demo_playing 0 1 demo_playing_reachable).
  reflexivity.
Defined.

(** A meter button other than the current one re-runs the effect. *)
Lemma meter_change_deps s beats :
  beats <> beatsPerMeasure s ->
  deps_changed s (handler (ClickMeter beats) s) = true.
Proof.
  intros Hne. unfold deps_changed. cbn [handler]. fields.
  replace (beatsPerMeasure s =? beats)%Z with false.
  - rewrite andb_false_r. reflexivity.
  - symmetry. apply Z.eqb_neq. congruence.
Qed.

(** A restart emits its first beat at once. *)
Lemma restart_emits fuel now old new s' bs :
  deps_changed old new = true -> isPlaying new = true ->
  audioContextRef new = true ->
  commit fuel now old new = Some (s', bs) -> bs <> [].
Proof.
  intros D P Ctx. rewrite commit_unfold. cbv zeta. rewrite D.
  unfold effect_body, scheduler. fields. rewrite P, Ctx. cbn [negb].
  destruct fuel as [|fuel]; [discriminate|].
  rewrite scheduler_loop_unfold. fields. cbn [lt].
  replace (Qltb now (now + scheduleAheadTime)) with true.
  - destruct (scheduler_loop fuel _ _ _) as [[s2 bs2]|]; [|discriminate].
    intros [= <- <-]. discriminate.
  - symmetry. apply Qltb_lt. unfold scheduleAheadTime. lra.
Qed.

(** C6. Clicking a meter button other than the current one, in any
    reachable state, makes beat 0 (accented) the next beat emitted,
    whatever events follow; the new meter is in force; and when the
    metronome is running the click itself emits that beat. *)
Theorem meter_change_resets s beats now es :
  reachable s -> In beats meters -> beats <> beatsPerMeasure s ->
  Forall (fun ne => wf_event (snd ne)) es ->
  (exists fuel r, run fuel ((now, ClickMeter beats) :: es) s = Some r)
  /\ forall fuel s' bs,
       run fuel ((now, ClickMeter beats) :: es) s = Some (s', bs) ->
       match bs with
       | [] => currentBeatRef s' = 0%Z
       | b :: _ => b_index b = 0%Z /\ b_isAccent b = true
       end
       /\ (isPlaying s = true -> bs <> []).
Proof.
  intros R W Hne Wes. pose proof (reachable_inv _ R) as I. split.
  - apply run_total; [exact I|]. constructor; [exact W|exact Wes].
  - intros fuel s' bs H.
    apply run_cons in H as (s1 & bs1 & bs2 & H1 & H2 & ->).
    pose proof (step_first_beat _ _ _ _ _ _
                  (or_intror (meter_change_deps s beats Hne)) H1) as F.
    split.
    + destruct bs1 as [|b bs1]; [|exact F].
      apply (run_first_beat _ _ _ _ _ F H2).
    + intros P. cbn [step] in H1.
      apply restart_emits in H1.
      * destruct bs1; [congruence|discriminate].
      * apply meter_change_deps, Hne.
      * exact P.
      * exact (inv_ctx _ I).
Qed.

Lemma meter_change_resets_witness :
  (exists fuel r,
     run fuel [(0.5, ClickMeter 3); (0.6, TimerFires 4)] demo_playing = Some r)
  /\ forall fuel s' bs,
       run fuel [(0.5, ClickMeter 3); (0.6, TimerFires 4)] demo_playing
       = Some (s', bs) ->
       match bs with
       | [] => currentBeatRef s' = 0%Z
       | b :: _ => b_index b = 0%Z /\ b_isAccent b = true
       end
       /\ (isPlaying demo_playing = true -> bs <> []).
Proof.
  apply (meter_change_resets demo_playing 3 0.5 [(0.6, TimerFires 4)]
           demo_playing_reachable).
  - simpl. auto.
  - vm_compute. discriminate.
  - repeat constructor.
Defined.

(** Every other number is clamped into [40, 240]. *)
Lemma handleBpmChange_clamps x s :
  x <> NaN -> within 40 240 (bpm s) ->
  within 40 240 (bpm (handleBpmChange x s)).
Proof.
  intros Hx Hs. unfold handleBpmChange, setBpm.
  destruct (same (bpm s) _); [exact Hs|]. fields. apply clamp_within, Hx.
Qed.

(** C9. At a tempo in [40, 240] every iteration of the catch-up loop moves
    the deadline forward by [60 / tempo > 0], and the loop returns, with its
    condition false, after at most [iteration_bound] iterations; it makes
    none when the deadline is [NaN] or infinite. *)
Theorem catch_up_loop_terminates now t m s :
  40 <= t -> t <= 240 -> nextNoteTimeRef s <> NegInf ->
  0 < 60 / t
  /\ (forall k d,
        advance (Closure (Fin t) m) (k, Fin d) = (rem (k + 1) m, Fin (d + 60 / t)))
  /\ exists fuel s' bs,
       scheduler_loop fuel (Closure (Fin t) m) now s = Some (s', bs)
       /\ lt (nextNoteTimeRef s') (now + scheduleAheadTime) = false
       /\ cursor_of s' = advance_n (Closure (Fin t) m) (length bs) (cursor_of s)
       /\ match nextNoteTimeRef s with
          | Fin d => (length bs <= iteration_bound now d)%nat
          | _ => bs = []
          end.
Proof.
  intros Hlo Hhi Hd.
  destruct (seconds_per_beat_bounds t Hlo Hhi) as [Hs _].
  split; [lra|]. split.
  - intros k d. unfold advance. cbn [fst snd c_bpm c_beatsPerMeasure].
    rewrite div_60_Fin by assumption. reflexivity.
  - assert (X : exists fuel s' bs,
               scheduler_loop fuel (Closure (Fin t) m) now s = Some (s', bs)
               /\ match nextNoteTimeRef s with
                  | Fin d => (length bs <= iteration_bound now d)%nat
                  | _ => bs = []
                  end).
    { destruct (nextNoteTimeRef s) as [| | |d] eqn:E; try congruence.
      - exists 1%nat, s, []. rewrite scheduler_loop_unfold, E. auto.
      - exists 1%nat, s, []. rewrite scheduler_loop_unfold, E. auto.
      - destruct (scheduler_loop_terminates_within t m now
                    (iteration_bound now d) Hlo Hhi s d E
                    (iteration_bound_spec now d)) as (s' & bs & H & Hlen).
        eauto 10. }
    destruct X as (fuel & s' & bs & H & Hlen).
    exists fuel, s', bs. split; [exact H|].
    split; [eapply scheduler_loop_exit, H|].
    split; [eapply scheduler_loop_cursor, H|exact Hlen].
Qed.

Lemma catch_up_loop_terminates_witness :
  0 < 60 / 120
  /\ (forall k d,
        advance (Closure (Fin 120) 4) (k, Fin d)
        = (rem (k + 1) 4, Fin (d + 60 / 120)))
  /\ exists fuel s' bs,
       scheduler_loop fuel (Closure (Fin 120) 4) 7 demo_playing = Some (s', bs)
       /\ lt (nextNoteTimeRef s') (7 + scheduleAheadTime) = false
       /\ cursor_of s'
          = advance_n (Closure (Fin 120) 4) (length bs) (cursor_of demo_playing)
       /\ match nextNoteTimeRef demo_playing with
          | Fin d => (length bs <= iteration_bound 7 d)%nat
          | _ => bs = []
          end.
Proof.
  apply (catch_up_loop_terminates 7 120 4 demo_playing).
  - vm_compute. discriminate.
  - vm_compute. discriminate.
  - vm_compute. discriminate.
Defined.

(** C3. Along any stretch of a running session the cursor starts where the
    previous stretch left it, each iteration takes the index to
    [(index + 1) mod meter], and the deadline is never moved back; at a
    tempo in [40, 240] each deadline is at or after the one before. *)
Theorem cursor_invariant fuel s bs s' :
  reachable s -> isPlaying s = true -> session fuel s bs s' ->
  head (trajectory bs s') = Some (cursor_of s)
  /\ forall i k k',
       trajectory bs s' !! i = Some k -> trajectory bs s' !! S i = Some k' ->
       fst k' = ((fst k + 1) mod beatsPerMeasure s)%Z
       /\ lt (snd k') (snd k) = false
       /\ (within 40 240 (bpm s) -> le (snd k) (snd k')).
Proof.
  intros R P H. pose proof (reachable_inv _ R) as I.
  destruct (session_trajectory _ _ _ _ I H) as (_ & _ & _ & ->).
  split; [reflexivity|].
  intros i k k' Hk Hk'.
  destruct (cursors_adjacent _ _ _ _ _ _ Hk Hk') as [Ek ->].
  pose proof (meters_range _ (inv_meter _ I)) as Hm.
  assert (Hpos : (0 < c_beatsPerMeasure (closure_of s))%Z) by (simpl; lia).
  pose proof (advance_n_index (closure_of s) i (cursor_of s) Hpos
                (inv_ref _ I)) as Hi.
  rewrite <- Ek in Hi.
  assert (Hclass : match snd (cursor_of s) with
                   | Fin _ | NaN => True | _ => False end).
  { pose proof (inv_deadline _ I) as Hd. unfold deadline_ok in Hd.
    cbn [cursor_of snd]. destruct (nextNoteTimeRef s); auto. }
  pose proof (advance_n_deadline_class (closure_of s) i (cursor_of s)
                (inv_bpm _ I) Hclass) as Hc.
  rewrite <- Ek in Hc.
  destruct (advance_deadline (closure_of s) k (inv_bpm _ I) Hc)
    as (Hlt & _ & Hle).
  split; [|split; [exact Hlt|]].
  - unfold advance, rem. cbn [fst closure_of c_beatsPerMeasure].
    apply Z.rem_mod_nonneg; [|lia].
    rewrite Hi. cbn [closure_of c_beatsPerMeasure].
    pose proof (Z.mod_pos_bound (fst (cursor_of s) + Z.of_nat i)
                  (beatsPerMeasure s)). lia.
  - intros Hw. apply Hle; [exact Hw|].
    destruct (bpm s) as [| | |t] eqn:Eb; try contradiction.
    pose proof (inv_deadline _ I) as Hd. unfold deadline_ok in Hd.
    destruct (nextNoteTimeRef s) as [| | |d] eqn:Ed; try contradiction.
    + rewrite P, Eb in Hd. destruct Hd; discriminate.
    + destruct Hw as [Hlo _].
      destruct (advance_n_deadline t (beatsPerMeasure s) i
                  (currentBeatRef s) d Hlo) as (d' & Hd' & _).
      rewrite Ek. unfold closure_of, cursor_of. rewrite Eb, Ed, Hd'.
      discriminate.
Qed.

Lemma cursor_invariant_witness :
  exists bs s',
    session 4 demo_playing bs s' /\ length bs = 2%nat
    /\ head (trajectory bs s') = Some (cursor_of demo_playing)
    /\ forall i k k',
         trajectory bs s' !! i = Some k -> trajectory bs s' !! S i = Some k' ->
         fst k' = ((fst k + 1) mod beatsPerMeasure demo_playing)%Z
         /\ lt (snd k') (snd k) = false
         /\ (within 40 240 (bpm demo_playing) -> le (snd k) (snd k')).
Proof.
  assert (S : exists bs s', session 4 demo_playing bs s' /\ length bs = 2%nat).
  { eexists _, _. split.
    - eapply (session_step 4 1.45 (TimerFires 3)).
      + exact I.
      + vm_compute. reflexivity.
      + vm_compute. reflexivity.
      + apply session_done.
    - reflexivity. }
  destruct S as (bs & s' & S & L). exists bs, s'.
  split; [exact S|]. split; [exact L|].
  apply (cursor_invariant 4 demo_playing bs s' demo_playing_reachable);
    [reflexivity|exact S].
Defined.

Lemma clamp_in_range t :
  40 <= t -> t <= 240 ->
  exists t', JS.max 40 (JS.min 240 (Fin t)) = Fin t' /\ t' == t.
Proof.
  intros Hlo Hhi. unfold JS.min, JS.max. cbn [lt].
  destruct (Qltb t 240) eqn:E1; cbn [lt].
  - destruct (Qltb 40 t) eqn:E2.
    + exists t. split; reflexivity.
    + apply Qltb_ge in E2. exists 40. split; [reflexivity|lra].
  - apply Qltb_ge in E1. exists 240. split; [reflexivity|lra].
Qed.

(** C1, as the spec states it, fails: a tempo change while running moves
    the cursor.  In the demonstration session the cursor points at beat 2;
    choosing 60 bpm at time 0.5 makes beat 0 the next beat emitted. *)
Lemma tempo_change_moves_cursor : ~ tempo_change_keeps_cursor.
Proof.
  intros H.
  assert (E : exists s' b,
             step 4 0.5 (SlideBpm 60) demo_playing = Some (s', [b])
             /\ b_index b = 0%Z).
  { eexists _, _. split; [vm_compute; reflexivity|reflexivity]. }
  destruct E as (s' & b & E & Eb).
  assert (P : isPlaying demo_playing = true) by (vm_compute; reflexivity).
  assert (S : same (bpm demo_playing)
                (bpm (handleBpmChange (Fin 60) demo_playing)) = false)
    by (vm_compute; reflexivity).
  pose proof (H 4%nat 0.5 (Fin 60) demo_playing s' [b]
                demo_playing_reachable P S E) as H'.
  cbv beta iota in H'. apply (f_equal fst) in H'.
  cbn [beat_cursor fst] in H'. rewrite Eb in H'.
  vm_compute in H'. discriminate.
Qed.

Lemma tempo_request_handler e x s :
  tempo_request e s = Some x ->
  handler e s = handleBpmChange x s
  /\ forall fuel now, step fuel now e s = commit fuel now s (handler e s).
Proof.
  destruct e; cbn [tempo_request]; intros [= <-]; split; reflexivity.
Qed.

(** C1, amended. A tempo control that changes the stored tempo while the
    metronome is running restarts the cursor: the step emits beat 0,
    accented, with the current time as its deadline, and leaves the cursor
    at beat 1 with the deadline one interval [60 / t2] of the new tempo
    later.  A tempo control that leaves the stored tempo as it is changes
    nothing. *)
Theorem tempo_change_restarts_cursor fuel now e x s :
  reachable s -> isPlaying s = true ->
  tempo_request e s = Some x -> x <> NaN ->
  (same (bpm s) (JS.max 40 (JS.min 240 x)) = false ->
   exists t2 s' b,
     JS.max 40 (JS.min 240 x) = Fin t2 /\ 40 <= t2 /\ t2 <= 240
     /\ step (S (S fuel)) now e s = Some (s', [b])
     /\ beat_cursor b = (0%Z, Fin now) /\ b_isAccent b = true
     /\ bpm s' = Fin t2 /\ isPlaying s' = true
     /\ beatsPerMeasure s' = beatsPerMeasure s
     /\ cursor_of s' = (1%Z, Fin (now + 60 / t2))
     /\ exists id,
          timers s' = {[ id := Closure (Fin t2) (beatsPerMeasure s) ]})
  /\ (same (bpm s) (JS.max 40 (JS.min 240 x)) = true ->
      step fuel now e s = Some (s, [])).
Proof.
  intros R P Hreq Hx. pose proof (reachable_inv _ R) as I.
  destruct (tempo_request_handler _ _ _ Hreq) as [Eh0 Est].
  split; intros Hs.
  - pose proof (clamp_within x Hx) as Hw.
    destruct (JS.max 40 (JS.min 240 x)) as [| | |t2] eqn:Ec; try contradiction.
    destruct Hw as [Hlo Hhi].
    pose proof (meters_range _ (inv_meter _ I)) as Hm.
    assert (Eh : handler e s = set_bpm (Fin t2) s).
    { rewrite Eh0. unfold handleBpmChange, setBpm. rewrite Ec, Hs.
      reflexivity. }
    assert (Rn : rendered s (handler e s))
      by (rewrite Eh0; apply handleBpmChange_rendered; exact I).
    assert (D : deps_changed s (handler e s) = true).
    { rewrite Eh. unfold deps_changed. fields. rewrite Hs.
      rewrite andb_false_r. reflexivity. }
    destruct (commit_start fuel now s (handler e s) t2 I Rn D)
      as (s' & b & H1 & Hb & Ha & Hk & _); auto.
    { rewrite Eh. exact P. }
    { rewrite Eh. reflexivity. }
    rewrite <- Est in H1.
    assert (I' : inv s').
    { eapply commit_inv; [exact I|exact Rn|]. rewrite <- Est. exact H1. }
    destruct (step_hooks _ _ _ _ _ _ H1) as (B1 & P1 & M1 & _).
    rewrite Eh in B1, P1, M1, Hk. unfold closure_of in Hk. fields.
    exists t2, s', b. split; [reflexivity|].
    repeat (split; [assumption|]).
    split; [congruence|]. split; [exact M1|]. split.
    + rewrite Hk. unfold advance, rem. cbn [fst snd c_bpm c_beatsPerMeasure].
      rewrite div_60_Fin by assumption. cbn [add]. f_equal.
      apply Z.rem_small. lia.
    + pose proof (inv_timers _ I') as T. unfold timers_ok, closure_of in T.
      rewrite P1, P, B1, M1 in T. destruct T as (id & _ & T). eauto.
  - rewrite Est, Eh0. unfold handleBpmChange, setBpm. rewrite Hs.
    rewrite commit_unfold. cbv zeta.
    rewrite deps_changed_refl, same_refl, eqb_reflx.
    destruct s; reflexivity.
Qed.

Lemma tempo_change_restarts_cursor_witness :
  cursor_of demo_playing = (2%Z, Fin (0 + 60 / 120 + 60 / 120))
  /\ exists t2 s' b,
       JS.max 40 (JS.min 240 (Fin 240)) = Fin t2 /\ 40 <= t2 /\ t2 <= 240
       /\ step 2 0.6 (SlideBpm (Fin 240)) demo_playing = Some (s', [b])
       /\ beat_cursor b = (0%Z, Fin 0.6) /\ b_isAccent b = true
       /\ bpm s' = Fin t2 /\ isPlaying s' = true
       /\ beatsPerMeasure s' = beatsPerMeasure demo_playing
       /\ cursor_of s' = (1%Z, Fin (0.6 + 60 / t2))
       /\ exists id,
            timers s'
            = {[ id := Closure (Fin t2) (beatsPerMeasure demo_playing) ]}.
Proof.
  assert (P : isPlaying demo_playing = true) by (vm_compute; reflexivity).
  assert (S : same (bpm demo_playing) (JS.max 40 (JS.min 240 (Fin 240)))
              = false) by (vm_compute; reflexivity).
  assert (N : Fin 240 <> NaN) by discriminate.
  split; [vm_compute; reflexivity|].
  exact (proj1 (tempo_change_restarts_cursor 0 0.6 (SlideBpm (Fin 240))
                  (Fin 240) demo_playing demo_playing_reachable P eq_refl N)
           S).
Defined.

(** ** The tempo the scheduler sees *)

(** The clamp lets [NaN] through: [Math.min(240, NaN)] and
    [Math.max(40, NaN)] are [NaN].  No control of the page passes it, see
    [delivered_request]. *)
Lemma handleBpmChange_NaN s : bpm (handleBpmChange NaN s) = NaN.
Proof.
  unfold handleBpmChange, setBpm. cbn [JS.min JS.max].
  destruct (bpm s) eqn:E; cbn [same]; fields; rewrite ?E; auto.
Qed.

Lemma delivered_wf e : delivered e -> wf_event e.
Proof. destruct e; cbn [delivered wf_event]; auto. Qed.

Lemma in_use_reachable s : in_use s -> reachable s.
Proof.
  induction 1 as [|fuel now e s s' bs _ IH D H]; [apply reach_mount|].
  exact (reach_step fuel now e s s' bs IH (delivered_wf e D) H).
Qed.

Lemma run_in_use fuel es s s' bs :
  in_use s -> Forall (fun ne => delivered (snd ne)) es ->
  run fuel es s = Some (s', bs) -> in_use s'.
Proof.
  revert s bs. induction es as [|[now e] es IH]; intros s bs Hs W H.
  - injection H as <- _. exact Hs.
  - apply run_cons in H as (s1 & bs1 & bs2 & H1 & H2 & _).
    inversion W as [|? ? We Wes]; subst.
    apply (IH s1 bs2 (use_step _ _ _ _ _ _ Hs We H1) Wes H2).
Qed.

Lemma demo_fast_in_use : in_use demo_fast.
Proof.
  eapply (run_in_use 2 demo_fast_events mounted _ _ use_mount).
  - repeat constructor; exists 240%Z; split; [lia|reflexivity].
  - vm_compute. reflexivity.
Qed.

(** The events that are not tempo controls leave the tempo alone. *)
Lemma handler_bpm e s : tempo_request e s = None -> bpm (handler e s) = bpm s.
Proof.
  destruct e; cbn [tempo_request handler]; try discriminate; intros _;
    unfold setVolume; try destruct (same _ _); reflexivity.
Qed.

(** What the four call sites of [handleBpmChange] pass: the stored tempo
    plus or minus one, the integer the slider holds, or a preset; never
    [NaN]. *)
Lemma delivered_request e x s :
  within 40 240 (bpm s) -> delivered e -> tempo_request e s = Some x ->
  x <> NaN.
Proof.
  intros Hs D T. destruct e; cbn [tempo_request] in T; try discriminate;
    injection T as <-.
  - destruct (bpm s); try contradiction. discriminate.
  - destruct (bpm s); try contradiction. discriminate.
  - destruct D as (n & _ & ->). discriminate.
  - cbn in D. intuition (subst; discriminate).
Qed.

Lemma in_use_tempo s : in_use s -> within 40 240 (bpm s).
Proof.
  induction 1 as [|fuel now e s s' bs _ IH D H].
  - cbn. split; discriminate.
  - destruct (step_hooks _ _ _ _ _ _ H) as (B & _). rewrite B.
    destruct (tempo_request e s) as [x|] eqn:T.
    + destruct (tempo_request_handler e x s T) as [-> _].
      apply handleBpmChange_clamps; [|exact IH].
      exact (delivered_request e x s IH D T).
    + rewrite (handler_bpm e s T). exact IH.
Qed.

(** C8. In use the tempo never leaves [40, 240]: every number a control
    passes to [handleBpmChange] is a number other than [NaN], what the
    handler stores for it lies in [40, 240], so the stored tempo lies in
    [40, 240] in every state, and so does the tempo of every scheduler
    closure waiting in a time-out, and of the closure the start/stop effect
    runs, which is the stored tempo itself. *)
Theorem stored_tempo_stays_in_range s :
  in_use s ->
  within 40 240 (bpm s)
  /\ (forall id c, timers s !! id = Some c -> within 40 240 (c_bpm c))
  /\ (forall e x,
        delivered e -> tempo_request e s = Some x ->
        x <> NaN
        /\ handler e s = handleBpmChange x s
        /\ within 40 240 (JS.max 40 (JS.min 240 x))
        /\ within 40 240 (bpm (handleBpmChange x s)))
  /\ (forall fuel now e s' bs,
        delivered e -> step fuel now e s = Some (s', bs) ->
        within 40 240 (bpm s') /\ within 40 240 (c_bpm (closure_of s'))).
Proof.
  intros U. pose proof (in_use_tempo s U) as Hs.
  pose proof (reachable_inv _ (in_use_reachable s U)) as I.
  split; [exact Hs|]. split; [|split].
  - intros id c L. pose proof (inv_timers _ I) as T. unfold timers_ok in T.
    destruct (isPlaying s).
    + destruct T as (id' & _ & T). rewrite T in L.
      apply lookup_singleton_Some in L as [_ <-]. exact Hs.
    + rewrite T, lookup_empty in L. discriminate.
  - intros e x D T. pose proof (delivered_request e x s Hs D T) as Hx.
    split; [exact Hx|]. split; [apply (tempo_request_handler e x s T)|].
    split; [apply clamp_within, Hx|].
    apply handleBpmChange_clamps; assumption.
  - intros fuel now e s' bs D H.
    pose proof (in_use_tempo s' (use_step _ _ _ _ _ _ U D H)) as Hs'.
    split; exact Hs'.
Qed.

Lemma stored_tempo_stays_in_range_witness :
  bpm demo_fast = Fin 240 /\ isPlaying demo_fast = true
  /\ within 40 240 (bpm demo_fast)
  /\ (forall id c,
        timers demo_fast !! id = Some c -> within 40 240 (c_bpm c))
  /\ (forall e x,
        delivered e -> tempo_request e demo_fast = Some x ->
        x <> NaN
        /\ handler e demo_fast = handleBpmChange x demo_fast
        /\ within 40 240 (JS.max 40 (JS.min 240 x))
        /\ within 40 240 (bpm (handleBpmChange x demo_fast)))
  /\ (forall fuel now e s' bs,
        delivered e -> step fuel now e demo_fast = Some (s', bs) ->
        within 40 240 (bpm s') /\ within 40 240 (c_bpm (closure_of s'))).
Proof.
  split; [vm_compute; reflexivity|]. split; [vm_compute; reflexivity|].
  exact (stored_tempo_stays_in_range demo_fast demo_fast_in_use).
Defined.

(** ** The beat train *)










(** The rounding adds up: at 180 bpm, started at clock 0, the seventh
    deadline is 1.9999999999999998, before 2. *)
Example seventh_deadline_at_180 :
  PrimFloat.ltb (F64.deadline (F64.of_Z 180) (F64.of_Z 0) 6) (F64.of_Z 2)
  = true.
Proof. vm_compute. reflexivity. Qed.



(** Every whole tempo of the slider and every meter button can be set on
    the stopped metronome. *)
Lemma every_tempo_and_meter_in_use n m :
  (40 <= n <= 240)%Z -> In m meters ->
  exists s t,
    in_use s /\ isPlaying s = false
    /\ bpm s = Fin t /\ t == inject_Z n /\ beatsPerMeasure s = m.
Proof.
  intros Hn Hm.
  assert (Hlo : 40 <= inject_Z n)
    by (change 40 with (inject_Z 40); rewrite <- Zle_Qle; lia).
  assert (Hhi : inject_Z n <= 240)
    by (change 240 with (inject_Z 240); rewrite <- Zle_Qle; lia).
  assert (D : Forall (fun ne : Q * event => delivered (snd ne))
                [(0, SlideBpm (Fin (inject_Z n))); (0, ClickMeter m)]).
  { constructor; [exists n; auto|]. constructor; [exact Hm|constructor]. }
  assert (W : Forall (fun ne : Q * event => wf_event (snd ne))
                [(0, SlideBpm (Fin (inject_Z n))); (0, ClickMeter m)]).
  { constructor; [exact I|]. constructor; [exact Hm|constructor]. }
  destruct (run_total _ mounted mounted_inv W) as (fuel & [s bs] & H).
  pose proof (run_in_use _ _ _ _ _ use_mount D H) as R.
  apply run_cons in H as (s1 & bs1 & bs2 & H1 & H2 & _).
  apply run_cons in H2 as (s2 & bs3 & bs4 & H2 & H3 & _).
  injection H3 as <- _.
  destruct (step_hooks _ _ _ _ _ _ H1) as (B1 & P1 & _).
  destruct (step_hooks _ _ _ _ _ _ H2) as (B2 & P2 & M2 & _).
  cbn [handler] in *. fields.
  destruct (clamp_in_range (inject_Z n) Hlo Hhi) as (t' & Ec & Et).
  unfold handleBpmChange, setBpm in B1, P1. rewrite Ec in B1, P1.
  assert (P0 : isPlaying mounted = false) by reflexivity.
  assert (B0 : bpm mounted = Fin 120) by reflexivity.
  destruct (same (bpm mounted) (Fin t')) eqn:Es.
  - exists s2, 120.
    assert (E : 120 == t') by (apply Qeq_bool_eq; exact Es).
    split; [exact R|]. split; [congruence|]. split; [congruence|].
    split; [rewrite E; exact Et|congruence].
  - exists s2, t'. fields.
    split; [exact R|]. split; [congruence|]. split; [congruence|].
    split; [exact Et|congruence].
Qed.

(** * Further properties of the component *)

Lemma commit_refl fuel now s : commit fuel now s s = Some (s, []).
Proof.
  rewrite commit_unfold. cbv zeta.
  rewrite deps_changed_refl, same_refl, eqb_reflx. destruct s; reflexivity.
Qed.

Lemma handler_isPlaying e s :
  e <> ClickPlay -> isPlaying (handler e s) = isPlaying s.
Proof.
  intros He. destruct e; try congruence; cbn [handler];
    unfold handleBpmChange, setBpm, setVolume;
    repeat match goal with |- context [same ?a ?b] => destruct (same a b) end;
    reflexivity.
Qed.

(** X1. In every reachable state at most one time-out is pending: while
    playing it is exactly the one [timerIdRef] names, armed with the tempo
    and meter of the current render; while stopped there is none. *)
Theorem single_pending_timeout s :
  reachable s ->
  (isPlaying s = true ->
   exists id,
     timerIdRef s = Some id
     /\ timers s = {[ id := Closure (bpm s) (beatsPerMeasure s) ]})
  /\ (isPlaying s = false -> timers s = ∅).
Proof.
  intros R. apply reachable_inv in R. pose proof (inv_timers _ R) as T.
  unfold timers_ok, closure_of in T.
  split; intros P; rewrite P in T; exact T.
Qed.

Lemma single_pending_timeout_witness :
  (isPlaying demo_playing = true ->
   exists id,
     timerIdRef demo_playing = Some id
     /\ timers demo_playing
        = {[ id := Closure (bpm demo_playing) (beatsPerMeasure demo_playing) ]})
  /\ (isPlaying demo_playing = false -> timers demo_playing = ∅).
Proof. exact (single_pending_timeout demo_playing demo_playing_reachable). Defined.

(** X2. A stopped metronome stays silent and stopped: no control other than
    the play button, no late time-out and no speech event emits a beat or
    arms a time-out. *)
Theorem stopped_stays_silent fuel now e s :
  reachable s -> isPlaying s = false -> wf_event e -> e <> ClickPlay ->
  exists s',
    step fuel now e s = Some (s', [])
    /\ isPlaying s' = false /\ timers s' = ∅.
Proof.
  intros R P W He. pose proof (reachable_inv _ R) as I.
  assert (H : exists s', step fuel now e s = Some (s', [])).
  { destruct e; try congruence; cbn [step];
      try (rewrite commit_unfold; cbv zeta;
           match goal with |- context [deps_changed s ?n] =>
             assert (Pn : isPlaying n = false)
               by (rewrite <- P; apply handler_isPlaying; discriminate);
             destruct (deps_changed s n)
           end; [|eauto];
           unfold effect_body; fields; rewrite Pn; eauto).
    - pose proof (inv_timers _ I) as T. unfold timers_ok in T.
      rewrite P in T. rewrite T, lookup_empty. eauto.
    - eauto. }
  destruct H as (s' & H). exists s'. split; [exact H|].
  destruct (step_hooks _ _ _ _ _ _ H) as (_ & P' & _).
  rewrite handler_isPlaying, P in P' by exact He. split; [exact P'|].
  pose proof (inv_timers _ (step_inv _ _ _ _ _ _ I W H)) as T.
  unfold timers_ok in T. rewrite P' in T. exact T.
Qed.

Lemma stopped_stays_silent_witness :
  exists s',
    step 0 3 (ClickMeter 6) mounted = Some (s', [])
    /\ isPlaying s' = false /\ timers s' = ∅.
Proof.
  apply (stopped_stays_silent 0 3 (ClickMeter 6) mounted reach_mount).
  - reflexivity.
  - simpl. auto 10.
  - discriminate.
Defined.

Lemma same_trans a b c : same a b = true -> same b c = true -> same a c = true.
Proof.
  destruct a, b, c; cbn [same]; try discriminate; auto.
  apply Qeq_bool_trans.
Qed.

Lemma same_sym a b : same a b = true -> same b a = true.
Proof.
  destruct a, b; cbn [same]; try discriminate; auto. apply Qeq_bool_sym.
Qed.

Lemma setBpm_same v s : same (bpm (setBpm v s)) v = true.
Proof.
  unfold setBpm. destruct (same (bpm s) v) eqn:E; [exact E|apply same_refl].
Qed.

(** X3. [handleBpmChange] stores the request clamped to [40, 240]: a
    request below 40 (also -Infinity) stores 40, one above 240 (also
    +Infinity) stores 240, any other number is stored as it is. *)
Theorem handleBpmChange_clamp x s :
  x <> NaN ->
  within 40 240 (bpm (handleBpmChange x s))
  /\ (lt x 40 = true -> same (bpm (handleBpmChange x s)) 40 = true)
  /\ (lt 240 x = true -> same (bpm (handleBpmChange x s)) 240 = true)
  /\ (lt x 40 = false -> lt 240 x = false ->
      same (bpm (handleBpmChange x s)) x = true).
Proof.
  intros Hx. unfold handleBpmChange.
  pose proof (setBpm_same (JS.max 40 (JS.min 240 x)) s) as E.
  split; [eapply within_same; [exact E|apply clamp_within, Hx]|].
  assert (C : (lt x 40 = true -> JS.max 40 (JS.min 240 x) = Fin 40)
              /\ (lt 240 x = true -> JS.max 40 (JS.min 240 x) = Fin 240)
              /\ (lt x 40 = false -> lt 240 x = false ->
                  same (JS.max 40 (JS.min 240 x)) x = true)).
  { destruct x as [| | |q]; try congruence.
    - repeat split; try discriminate; reflexivity.
    - repeat split; try discriminate; reflexivity.
    - cbn [lt]. unfold JS.min, JS.max. cbn [lt].
      destruct (Qltb q 240) eqn:E1; cbn [lt];
        destruct (Qltb 40 q) eqn:E2; cbn [lt];
        destruct (Qltb q 40) eqn:E3; destruct (Qltb 240 q) eqn:E4;
        repeat split; intros; try discriminate; try reflexivity;
        try apply Qltb_lt in E1; try apply Qltb_lt in E2;
        try apply Qltb_lt in E3; try apply Qltb_lt in E4;
        try apply Qltb_ge in E1; try apply Qltb_ge in E2;
        try apply Qltb_ge in E3; try apply Qltb_ge in E4;
        try lra; cbn [same]; try apply Qeq_bool_refl;
        apply Qeq_eq_bool; lra. }
  destruct C as (C1 & C2 & C3).
  split; [intros H; eapply same_trans;
            [exact E|rewrite (C1 H); apply same_refl]|].
  split; [intros H; eapply same_trans;
            [exact E|rewrite (C2 H); apply same_refl]|].
  intros H1 H2. eapply same_trans; [exact E|apply C3; assumption].
Qed.

Lemma handleBpmChange_clamp_witness :
  within 40 240 (bpm (handleBpmChange 300 mounted))
  /\ (lt 300 40 = true -> same (bpm (handleBpmChange 300 mounted)) 40 = true)
  /\ (lt 240 300 = true -> same (bpm (handleBpmChange 300 mounted)) 240 = true)
  /\ (lt 300 40 = false -> lt 240 300 = false ->
      same (bpm (handleBpmChange 300 mounted)) 300 = true).
Proof.
  apply (handleBpmChange_clamp 300 mounted). discriminate.
Defined.

(** X4. The minus and plus buttons move the tempo by one inside
    [40, 240]; at 40 the minus button, and at 240 the plus button, changes
    nothing at all: no restart, no beat, the same state. *)
Theorem tempo_buttons_stop_at_bounds fuel now t s :
  bpm s = Fin t ->
  (t == 40 -> step fuel now ClickMinus s = Some (s, []))
  /\ (t == 240 -> step fuel now ClickPlus s = Some (s, []))
  /\ (41 <= t -> t <= 240 ->
      same (bpm (handler ClickMinus s)) (Fin (t - 1)) = true)
  /\ (40 <= t -> t <= 239 ->
      same (bpm (handler ClickPlus s)) (Fin (t + 1)) = true).
Proof.
  intros B.
  assert (Noop : forall e x,
            tempo_request e s = Some x ->
            same (bpm s) (JS.max 40 (JS.min 240 x)) = true ->
            step fuel now e s = Some (s, [])).
  { intros e x Hreq Hs.
    destruct (tempo_request_handler _ _ _ Hreq) as [Eh Est].
    rewrite Est, Eh. unfold handleBpmChange, setBpm. rewrite Hs.
    apply commit_refl. }
  assert (Cl : forall q, 40 <= q -> q <= 240 ->
            same (JS.max 40 (JS.min 240 (Fin q))) (Fin q) = true).
  { intros q Hlo Hhi. destruct (clamp_in_range q Hlo Hhi) as (q' & -> & E).
    cbn [same]. apply Qeq_eq_bool, E. }
  split; [|split; [|split]].
  - intros Ht. apply (Noop ClickMinus (sub (bpm s) 1) eq_refl).
    rewrite B. cbn [sub opp add]. unfold JS.min, JS.max. cbn [lt].
    replace (Qltb (t + - (1)) 240) with true
      by (symmetry; apply Qltb_lt; lra).
    cbn [lt].
    replace (Qltb 40 (t + - (1))) with false
      by (symmetry; apply Qltb_ge; lra).
    cbn [same]. apply Qeq_eq_bool, Ht.
  - intros Ht. apply (Noop ClickPlus (add (bpm s) 1) eq_refl).
    rewrite B. cbn [add]. unfold JS.min, JS.max. cbn [lt].
    replace (Qltb (t + 1) 240) with false
      by (symmetry; apply Qltb_ge; lra).
    cbn [lt same]. apply Qeq_eq_bool, Ht.
  - intros Hlo Hhi. cbn [handler]. unfold handleBpmChange.
    eapply same_trans; [apply setBpm_same|].
    rewrite B. cbn [sub opp add]. apply Cl; lra.
  - intros Hlo Hhi. cbn [handler]. unfold handleBpmChange.
    eapply same_trans; [apply setBpm_same|].
    rewrite B. cbn [add]. apply Cl; lra.
Qed.

Lemma tempo_buttons_stop_at_bounds_witness :
  step 0 1 ClickMinus (handleBpmChange 40 demo_playing)
  = Some (handleBpmChange 40 demo_playing, [])
  /\ same (bpm (handler ClickPlus (handleBpmChange 40 demo_playing)))
       (Fin (40 + 1)) = true.
Proof.
  assert (B : bpm (handleBpmChange 40 demo_playing) = Fin 40)
    by (vm_compute; reflexivity).
  pose proof (tempo_buttons_stop_at_bounds 0 1 40
                (handleBpmChange 40 demo_playing) B) as (H1 & _ & _ & H4).
  split; [apply H1; reflexivity|apply H4; discriminate].
Defined.

(** X5. The volume slider, the voice switch and the button of the meter
    already selected never disturb the beat train: the step emits nothing
    and leaves the cursor, the pending time-out, the speech queue, the
    tempo, the meter and the running state as they are. *)
Theorem session_controls_keep_the_train fuel now e s :
  keeps_session s e = true ->
  exists s',
    step fuel now e s = Some (s', [])
    /\ cursor_of s' = cursor_of s
    /\ timers s' = timers s /\ timerIdRef s' = timerIdRef s
    /\ speechQueue s' = speechQueue s
    /\ closure_of s' = closure_of s /\ isPlaying s' = isPlaying s.
Proof.
  intros K.
  assert (D : deps_changed s (handler e s) = false
              /\ cursor_of (handler e s) = cursor_of s
              /\ timers (handler e s) = timers s
              /\ timerIdRef (handler e s) = timerIdRef s
              /\ speechQueue (handler e s) = speechQueue s
              /\ closure_of (handler e s) = closure_of s
              /\ isPlaying (handler e s) = isPlaying s).
  { destruct e; try discriminate; cbn [handler keeps_session] in *.
    - apply Z.eqb_eq in K. subst beats. unfold deps_changed, closure_of.
      fields. rewrite eqb_reflx, same_refl, Z.eqb_refl. auto 10.
    - unfold setVolume. destruct (same (volume s) parsed);
        unfold deps_changed, closure_of; fields;
        rewrite eqb_reflx, same_refl, Z.eqb_refl; auto 10.
    - unfold deps_changed, closure_of. fields.
      rewrite eqb_reflx, same_refl, Z.eqb_refl. auto 10. }
  destruct D as (D & Hk & Ht & Hi & Hq & Hc & Hp).
  assert (St : step fuel now e s = commit fuel now s (handler e s))
    by (destruct e; try discriminate; reflexivity).
  rewrite St, commit_unfold. cbv zeta. rewrite D.
  eexists. split; [reflexivity|].
  unfold cursor_of, closure_of in *. fields. auto 10.
Qed.

Lemma session_controls_keep_the_train_witness :
  exists s',
    step 0 1 (SlideVolume 0.9) demo_playing = Some (s', [])
    /\ cursor_of s' = cursor_of demo_playing
    /\ timers s' = timers demo_playing
    /\ timerIdRef s' = timerIdRef demo_playing
    /\ speechQueue s' = speechQueue demo_playing
    /\ closure_of s' = closure_of demo_playing
    /\ isPlaying s' = isPlaying demo_playing.
Proof.
  apply (session_controls_keep_the_train 0 1 (SlideVolume 0.9) demo_playing).
  reflexivity.
Defined.

(** ** What one loop run leaves behind *)

Lemma scheduler_loop_last fuel c now s s' bs b :
  scheduler_loop fuel c now s = Some (s', bs) -> last bs = Some b ->
  currentBeat s' = b_index b
  /\ currentBeatRef s' = rem (b_index b + 1) (c_beatsPerMeasure c).
Proof.
  revert s bs. induction fuel as [|fuel IH]; intros s bs H Hl;
    apply scheduler_loop_inv in H as [(_ & _ & ->)|(f & bs' & E & _ & -> & H)];
    try discriminate.
  injection E as <-. destruct bs' as [|b1 bs'].
  - apply scheduler_loop_inv in H as [(_ & -> & _)|(? & ? & _ & _ & [=] & _)].
    injection Hl as <-. rewrite scheduler_body_state.
    split; reflexivity.
  - eapply IH; [exact H|exact Hl].
Qed.

Lemma scheduler_loop_queue fuel c now s s' bs :
  scheduler_loop fuel c now s = Some (s', bs) ->
  speechQueue s' = speechQueue s ++ announcements bs.
Proof.
  revert s bs. induction fuel as [|fuel IH]; intros s bs H;
    apply scheduler_loop_inv in H as [(_ & -> & ->)|(f & bs' & E & _ & -> & H)];
    try discriminate.
  - cbn. rewrite app_nil_r. reflexivity.
  - cbn. rewrite app_nil_r. reflexivity.
  - injection E as <-. apply IH in H. rewrite H, scheduler_body_state.
    unfold announcements. cbn [omap list_omap with_cursor speechQueue].
    rewrite scheduler_body_beat. cbn [b_speech].
    destruct (speakBeatNumber _ s); [rewrite <- app_assoc|]; reflexivity.
Qed.

Lemma scheduler_loop_due fuel c now s s' bs :
  scheduler_loop fuel c now s = Some (s', bs) ->
  Forall (fun b =>
            lt (b_deadline b) (now + scheduleAheadTime) = true
            /\ forall t, b_tick b = Some t ->
                 tk_start t = now /\ tk_stop t = now + 0.05) bs.
Proof.
  revert s bs. induction fuel as [|fuel IH]; intros s bs H;
    apply scheduler_loop_inv in H as [(_ & _ & ->)|(f & bs' & E & L & -> & H)];
    try discriminate; try constructor.
  - rewrite scheduler_body_beat. cbn [b_deadline b_tick]. split; [exact L|].
    unfold playTick. intros t. destruct (audioContextRef s); [|discriminate].
    intros [= <-]. split; reflexivity.
  - injection E as <-. eauto.
Qed.

(** The closure a step armed is the one of the render it ends in. *)
Lemma armed_closure c s1 s' :
  inv s' -> s' = setTimeout c s1 -> c = closure_of s'.
Proof.
  intros I E. pose proof (inv_timers _ I) as T. unfold timers_ok in T.
  assert (L : timers s' !! nextTimerId s1 = Some c).
  { rewrite E. fields. apply lookup_insert_eq. }
  destruct (isPlaying s').
  - destruct T as (id & _ & T). rewrite T in L.
    apply lookup_singleton_Some in L as [_ L]. congruence.
  - rewrite T, lookup_empty in L. discriminate.
Qed.

(** X7. The beat indicator follows the sound: after any step that emits
    beats, the published beat index is the index of the last beat emitted,
    and the cursor points at the beat after it. *)
Theorem published_beat_is_last_emitted fuel now e s s' bs b :
  reachable s -> wf_event e ->
  step fuel now e s = Some (s', bs) -> last bs = Some b ->
  currentBeat s' = b_index b
  /\ currentBeatRef s' = ((b_index b + 1) mod beatsPerMeasure s')%Z.
Proof.
  intros R W H Hl. pose proof (reachable_inv _ R) as I.
  pose proof (step_inv _ _ _ _ _ _ I W H) as I'.
  apply step_beats in H as [->|(c & s0 & s1 & L & E & _)]; [discriminate|].
  destruct (scheduler_loop_last _ _ _ _ _ _ _ L Hl) as [Hp Hr].
  pose proof (armed_closure _ _ _ I' E) as Hc.
  assert (Ep : currentBeat s' = b_index b) by (rewrite E; fields; exact Hp).
  split; [exact Ep|].
  assert (Er : currentBeatRef s' = rem (b_index b + 1) (beatsPerMeasure s')).
  { rewrite Hc in Hr. cbn [closure_of c_beatsPerMeasure] in Hr.
    rewrite E at 1. fields. exact Hr. }
  rewrite Er. unfold rem. apply Z.rem_mod_nonneg.
  - pose proof (inv_published _ I'). lia.
  - pose proof (meters_range _ (inv_meter _ I')). lia.
Qed.

Lemma published_beat_is_last_emitted_witness :
  exists s' b0 b1,
    step 4 1.45 (TimerFires 3) demo_playing = Some (s', [b0; b1])
    /\ currentBeat s' = b_index b1
    /\ currentBeatRef s' = ((b_index b1 + 1) mod beatsPerMeasure s')%Z.
Proof.
  assert (E : exists s' b0 b1,
             step 4 1.45 (TimerFires 3) demo_playing = Some (s', [b0; b1])).
  { eexists _, _, _. vm_compute. reflexivity. }
  destruct E as (s' & b0 & b1 & E). exists s', b0, b1.
  split; [exact E|].
  exact (published_beat_is_last_emitted 4 1.45 (TimerFires 3) demo_playing
           s' [b0; b1] b1 demo_playing_reachable I E eq_refl).
Defined.

Lemma handler_queue e s : speechQueue (handler e s) = speechQueue s.
Proof.
  destruct e; cbn [handler]; unfold handleBpmChange, setBpm, setVolume;
    repeat match goal with |- context [same ?a ?b] => destruct (same a b) end;
    reflexivity.
Qed.

(** X8. Announcements are queued in beat order: a step that does not
    re-run the effect appends the utterances of the beats it emits, in
    order, to the speech queue; a step that re-runs it first cancels the
    queue, so that only the utterances of its own beats are left. *)
Theorem announcements_are_queued_in_order fuel now e s s' bs :
  e <> SpeechSpoken ->
  step fuel now e s = Some (s', bs) ->
  speechQueue s'
  = (if deps_changed s (handler e s) then [] else speechQueue s)
    ++ announcements bs.
Proof.
  intros He.
  assert (S : forall c s0 s2 bs2,
             scheduler fuel c now s0 = Some (s2, bs2) ->
             speechQueue s2 = speechQueue s0 ++ announcements bs2).
  { intros c s0 s2 bs2 H.
    apply scheduler_beats in H as [[-> ->]|(s1 & L & ->)].
    - cbn. rewrite app_nil_r. reflexivity.
    - apply scheduler_loop_queue in L. fields. exact L. }
  assert (C : commit fuel now s (handler e s) = Some (s', bs) ->
              speechQueue s'
              = (if deps_changed s (handler e s) then [] else speechQueue s)
                ++ announcements bs).
  { rewrite commit_unfold. cbv zeta.
    destruct (deps_changed s (handler e s)).
    - unfold effect_body. fields.
      destruct (isPlaying (handler e s)).
      + intros H. apply S in H. fields.
        destruct (audioContextRef (handler e s)); fields; exact H.
      + intros [= <- <-].
        destruct (timerIdRef (handler e s)); reflexivity.
    - intros [= <- <-]. fields. rewrite handler_queue. cbn.
      rewrite app_nil_r. reflexivity. }
  destruct e; cbn [step]; try exact C; try congruence.
  cbn [handler]. rewrite deps_changed_refl.
  destruct (timers s !! id).
  - intros H. apply S in H. fields. exact H.
  - intros [= <- <-]. cbn. rewrite app_nil_r. reflexivity.
Qed.

Lemma announcements_are_queued_in_order_witness :
  exists s' b0 b1 u0 u1,
    step 4 1.45 (TimerFires 3) demo_playing = Some (s', [b0; b1])
    /\ announcements [b0; b1] = [u0; u1]
    /\ u_number u0 = 3%Z /\ u_number u1 = 4%Z
    /\ speechQueue s' = speechQueue demo_playing ++ [u0; u1].
Proof.
  assert (E : exists s' b0 b1 u0 u1,
             step 4 1.45 (TimerFires 3) demo_playing = Some (s', [b0; b1])
             /\ announcements [b0; b1] = [u0; u1]
             /\ u_number u0 = 3%Z /\ u_number u1 = 4%Z).
  { eexists _, _, _, _, _. split; [vm_compute; reflexivity|].
    split; [reflexivity|]. split; reflexivity. }
  destruct E as (s' & b0 & b1 & u0 & u1 & E & A & N0 & N1).
  exists s', b0, b1, u0, u1. repeat (split; [assumption|]).
  rewrite <- A.
  assert (N : TimerFires 3 <> SpeechSpoken) by discriminate.
  assert (D : deps_changed demo_playing (handler (TimerFires 3) demo_playing)
              = false) by (vm_compute; reflexivity).
  pose proof (announcements_are_queued_in_order 4 1.45 (TimerFires 3)
                demo_playing s' [b0; b1] N E) as Q.
  rewrite D in Q. exact Q.
Defined.

(** X9. A scheduler run emits exactly the beats that are due within the
    look-ahead: every beat of a step at clock [now] has its deadline before
    [now + 0.1]; its tone starts at [now] itself (so up to 0.1 s ahead of
    the deadline) and stops 0.05 s later; and once beats were emitted, the
    deadline left in the cursor is not before [now + 0.1]. *)
Theorem emitted_beats_are_due fuel now e s s' bs :
  step fuel now e s = Some (s', bs) ->
  Forall (fun b =>
            lt (b_deadline b) (now + scheduleAheadTime) = true
            /\ (forall d, b_deadline b = Fin d -> d < now + scheduleAheadTime)
            /\ forall t, b_tick b = Some t ->
                 tk_start t = now /\ tk_stop t = now + 0.05) bs
  /\ (bs <> [] -> lt (nextNoteTimeRef s') (now + scheduleAheadTime) = false).
Proof.
  intros H. apply step_beats in H as [->|(c & s0 & s1 & L & -> & _)].
  - split; [constructor|congruence].
  - split.
    + eapply Forall_impl; [exact (scheduler_loop_due _ _ _ _ _ _ L)|].
      intros b [Hd Ht]. split; [exact Hd|]. split; [|exact Ht].
      intros d Ed. rewrite Ed in Hd. cbn [lt] in Hd. apply Qltb_lt, Hd.
    + intros _. fields. eapply scheduler_loop_exit, L.
Qed.

Lemma emitted_beats_are_due_witness :
  exists s' b0 b1,
    step 4 1.45 (TimerFires 3) demo_playing = Some (s', [b0; b1])
    /\ Forall (fun b =>
                 lt (b_deadline b) (1.45 + scheduleAheadTime) = true
                 /\ (forall d, b_deadline b = Fin d
                               -> d < 1.45 + scheduleAheadTime)
                 /\ forall t, b_tick b = Some t ->
                      tk_start t = 1.45 /\ tk_stop t = 1.45 + 0.05) [b0; b1]
    /\ ([b0; b1] <> [] ->
        lt (nextNoteTimeRef s') (1.45 + scheduleAheadTime) = false).
Proof.
  assert (E : exists s' b0 b1,
             step 4 1.45 (TimerFires 3) demo_playing = Some (s', [b0; b1])).
  { eexists _, _, _. vm_compute. reflexivity. }
  destruct E as (s' & b0 & b1 & E). exists s', b0, b1.
  split; [exact E|].
  exact (emitted_beats_are_due 4 1.45 (TimerFires 3) demo_playing s'
           [b0; b1] E).
Defined.




(** ** The rendered page *)

Lemma beatCells_lookup s i :
  beatCells s !! i
  = if (i <? Z.to_nat (beatsPerMeasure s))%nat
    then Some (beatCell s (Z.of_nat i)) else None.
Proof.
  unfold beatCells. rewrite !lookup_map.
  destruct (Nat.ltb_spec i (Z.to_nat (beatsPerMeasure s))) as [Hi|Hi].
  - rewrite lookup_seq_lt by exact Hi. reflexivity.
  - rewrite lookup_seq_ge by exact Hi. reflexivity.
Qed.

(** X11. The beat visualisation has one cell per beat of the measure.
    While playing exactly one cell is lit, the cell of the published beat,
    purple if that is beat 0 and blue otherwise; while stopped no cell is
    lit. *)
Theorem beat_cells_light_one_beat s :
  reachable s ->
  length (beatCells s) = Z.to_nat (beatsPerMeasure s)
  /\ (forall i c,
        beatCells s !! i = Some c -> isLit c = true ->
        isPlaying s = true /\ Z.of_nat i = currentBeat s)
  /\ (isPlaying s = true ->
      beatCells s !! Z.to_nat (currentBeat s)
      = Some (if (currentBeat s =? 0)%Z then CellAccent else CellBeat))
  /\ (isPlaying s = false -> Forall (fun c => c = CellIdle) (beatCells s)).
Proof.
  intros R. apply reachable_inv in R.
  pose proof (inv_published _ R) as Hp.
  split; [unfold beatCells; rewrite !length_map, length_seq; reflexivity|].
  split; [|split].
  - intros i c. rewrite beatCells_lookup.
    destruct (i <? _)%nat; [|discriminate]. intros [= <-].
    unfold beatCell. destruct (isPlaying s); cbn [andb]; [|discriminate].
    destruct (currentBeat s =? Z.of_nat i)%Z eqn:E; [|discriminate].
    apply Z.eqb_eq in E. auto.
  - intros P. rewrite beatCells_lookup.
    destruct (Nat.ltb_spec (Z.to_nat (currentBeat s))
                (Z.to_nat (beatsPerMeasure s))) as [Hi|Hi]; [|lia].
    unfold beatCell. rewrite P, Z2Nat.id, Z.eqb_refl by lia. reflexivity.
  - intros P. unfold beatCells. rewrite !Forall_map. apply Forall_forall.
    intros i _. unfold beatCell. rewrite P. reflexivity.
Qed.

Lemma beat_cells_light_one_beat_witness :
  beatCells demo_playing = [CellIdle; CellBeat; CellIdle; CellIdle]
  /\ length (beatCells demo_playing)
     = Z.to_nat (beatsPerMeasure demo_playing)
  /\ (forall i c,
        beatCells demo_playing !! i = Some c -> isLit c = true ->
        isPlaying demo_playing = true
        /\ Z.of_nat i = currentBeat demo_playing)
  /\ (isPlaying demo_playing = true ->
      beatCells demo_playing !! Z.to_nat (currentBeat demo_playing)
      = Some (if (currentBeat demo_playing =? 0)%Z
              then CellAccent else CellBeat))
  /\ (isPlaying demo_playing = false ->
      Forall (fun c => c = CellIdle) (beatCells demo_playing)).
Proof.
  split; [vm_compute; reflexivity|].
  exact (beat_cells_light_one_beat demo_playing demo_playing_reachable).
Defined.

(** X12. A click on a preset button stores that preset, whatever the
    tempo was: afterwards that button, and no other, is drawn as
    selected. *)
Theorem preset_click_selects_it fuel now p s s' bs :
  In p presets ->
  step fuel now (ClickPreset p) s = Some (s', bs) ->
  same (bpm s') p = true
  /\ presetButtons s' = map (fun q => (q, same p q)) presets.
Proof.
  intros Hp H.
  destruct (step_hooks _ _ _ _ _ _ H) as (B & _).
  cbn [handler] in B. unfold handleBpmChange in B.
  pose proof (setBpm_same (JS.max 40 (JS.min 240 p)) s) as E.
  rewrite <- B in E.
  assert (Ep : JS.max 40 (JS.min 240 p) = p).
  { unfold presets in Hp. cbn [In] in Hp.
    destruct Hp as [<-|[<-|[<-|[<-|[<-|[]]]]]]; reflexivity. }
  rewrite Ep in E. split; [exact E|].
  unfold presetButtons, presets. cbn [map].
  assert (S : forall q, strict_eq (bpm s') (Fin q) = same p (Fin q)).
  { intros q. destruct (bpm s') as [| | |x], p as [| | |y];
      cbn [same strict_eq] in *; try discriminate; try reflexivity.
    apply Qeq_bool_eq in E. rewrite E. reflexivity. }
  rewrite !S. reflexivity.
Qed.

Lemma preset_click_selects_it_witness :
  exists s' b,
    step 2 0.7 (ClickPreset 90) demo_playing = Some (s', [b])
    /\ same (bpm s') 90 = true
    /\ presetButtons s'
       = [(Fin 60, false); (Fin 90, true); (Fin 120, false);
          (Fin 140, false); (Fin 180, false)].
Proof.
  assert (E : exists s' b,
             step 2 0.7 (ClickPreset 90) demo_playing = Some (s', [b])).
  { eexists _, _. vm_compute. reflexivity. }
  destruct E as (s' & b & E). exists s', b. split; [exact E|].
  assert (P : In (Fin 90) presets) by (simpl; auto).
  exact (preset_click_selects_it 2 0.7 90 demo_playing s' [b] P E).
Defined.

(** X13. Unmounting releases what the component holds: in every reachable
    state the clean-ups close the audio context, leave no time-out pending
    and empty the speech queue, so that nothing can be emitted
    afterwards. *)
Theorem unmount_releases s :
  reachable s ->
  snd (unmount s) = true
  /\ timers (fst (unmount s)) = ∅
  /\ speechQueue (fst (unmount s)) = []
  /\ forall fuel now id,
       step fuel now (TimerFires id) (fst (unmount s))
       = Some (fst (unmount s), []).
Proof.
  intros R. apply reachable_inv in R.
  pose proof (cleanup_timers s (inv_timers _ R)) as T.
  assert (Tm : timers (fst (unmount s)) = ∅).
  { unfold unmount, effect_cleanup. cbn [fst].
    destruct (timerIdRef s); fields; exact T. }
  split; [exact (inv_ctx _ R)|]. split; [exact Tm|].
  split; [reflexivity|].
  intros fuel now id. cbn [step]. rewrite Tm, lookup_empty. reflexivity.
Qed.

Lemma unmount_releases_witness :
  timers demo_playing <> ∅ /\ speechQueue demo_playing <> []
  /\ snd (unmount demo_playing) = true
  /\ timers (fst (unmount demo_playing)) = ∅
  /\ speechQueue (fst (unmount demo_playing)) = []
  /\ forall fuel now id,
       step fuel now (TimerFires id) (fst (unmount demo_playing))
       = Some (fst (unmount demo_playing), []).
Proof.
  split; [vm_compute; discriminate|]. split; [vm_compute; discriminate|].
  exact (unmount_releases demo_playing demo_playing_reachable).
Defined.

(** ** Beats stay inside the measure *)

Lemma scheduler_loop_indices fuel c now s s' bs :
  (0 < c_beatsPerMeasure c)%Z ->
  (0 <= currentBeatRef s < c_beatsPerMeasure c)%Z ->
  scheduler_loop fuel c now s = Some (s', bs) ->
  Forall (fun b =>
            (0 <= b_index b < c_beatsPerMeasure c)%Z
            /\ forall u, b_speech b = Some u ->
                 u_number u = (b_index b + 1)%Z /\ u_rate u = 2) bs.
Proof.
  intros Hm. revert s bs. induction fuel as [|fuel IH]; intros s bs Hr H;
    apply scheduler_loop_inv in H as [(_ & _ & ->)|(f & bs' & E & _ & -> & H)];
    try discriminate; try constructor.
  - rewrite scheduler_body_beat. cbn [b_index b_speech]. split; [exact Hr|].
    unfold speakBeatNumber. intros u. destruct (voiceEnabledRef s);
      [|discriminate]. intros [= <-]. split; reflexivity.
  - injection E as <-. eapply IH; [|exact H].
    rewrite scheduler_body_state. cbn [with_cursor currentBeatRef].
    unfold rem. rewrite Z.rem_mod_nonneg by lia. apply Z.mod_pos_bound. lia.
Qed.

(** The loop run behind the beats of a step starts at beat 0, or where the
    cursor was with the meter unchanged. *)
Lemma step_beats_start fuel now e s s' bs :
  step fuel now e s = Some (s', bs) -> bs <> [] ->
  exists c s0 s1,
    scheduler_loop fuel c now s0 = Some (s1, bs)
    /\ s' = setTimeout c s1
    /\ (currentBeatRef s0 = 0%Z
        \/ (currentBeatRef s0 = currentBeatRef s
            /\ beatsPerMeasure s' = beatsPerMeasure s)).
Proof.
  intros H Hne.
  assert (C : commit fuel now s (handler e s) = Some (s', bs) ->
              exists c s0 s1,
                scheduler_loop fuel c now s0 = Some (s1, bs)
                /\ s' = setTimeout c s1
                /\ (currentBeatRef s0 = 0%Z
                    \/ (currentBeatRef s0 = currentBeatRef s
                        /\ beatsPerMeasure s' = beatsPerMeasure s))).
  { rewrite commit_unfold. cbv zeta.
    destruct (deps_changed s (handler e s));
      [|intros [= _ <-]; congruence].
    unfold effect_body. fields.
    destruct (isPlaying (handler e s)); [|intros [= _ <-]; congruence].
    intros H'. apply scheduler_beats in H' as [[-> _]|(s1 & L & ->)];
      [congruence|].
    eexists _, _, s1. split; [exact L|]. split; [reflexivity|].
    left. reflexivity. }
  revert H. destruct e; cbn [step]; try exact C.
  - destruct (timers s !! id); [|intros [= _ <-]; congruence].
    intros H. pose proof (scheduler_hooks _ _ _ _ _ _ H) as (_ & _ & M & _).
    apply scheduler_beats in H as [[-> _]|(s1 & L & ->)]; [congruence|].
    eexists _, _, s1. split; [exact L|]. split; [reflexivity|].
    right. split; [reflexivity|exact M].
  - intros [= _ <-]. congruence.
Qed.

(** X14. Every beat emitted lies inside the measure in force after the
    step: its index is in [0, beatsPerMeasure), and when it is announced
    the number spoken is index + 1, between 1 and the meter, at rate 2. *)
Theorem beats_stay_inside_the_measure fuel now e s s' bs :
  reachable s -> wf_event e ->
  step fuel now e s = Some (s', bs) ->
  Forall (fun b =>
            (0 <= b_index b < beatsPerMeasure s')%Z
            /\ forall u, b_speech b = Some u ->
                 (1 <= u_number u <= beatsPerMeasure s')%Z
                 /\ u_rate u = 2) bs.
Proof.
  intros R W H. pose proof (reachable_inv _ R) as I.
  pose proof (step_inv _ _ _ _ _ _ I W H) as I'.
  destruct bs as [|b0 bs0]; [constructor|].
  apply step_beats_start in H as (c & s0 & s1 & L & E & Hk); [|discriminate].
  pose proof (armed_closure _ _ _ I' E) as Hc.
  pose proof (meters_range _ (inv_meter _ I')) as Hm.
  assert (Hr : (0 <= currentBeatRef s0 < c_beatsPerMeasure c)%Z).
  { rewrite Hc. cbn [closure_of c_beatsPerMeasure].
    destruct Hk as [->|[-> M]]; [lia|].
    rewrite M. exact (inv_ref _ I). }
  assert (Hpos : (0 < c_beatsPerMeasure c)%Z)
    by (rewrite Hc; cbn [closure_of c_beatsPerMeasure]; lia).
  pose proof (scheduler_loop_indices _ _ _ _ _ _ Hpos Hr L) as F.
  rewrite Hc in F. cbn [closure_of c_beatsPerMeasure] in F.
  eapply Forall_impl; [exact F|].
  intros b [Hi Hu]. split; [exact Hi|].
  intros u Eu. destruct (Hu u Eu) as [-> Hrate]. split; [lia|exact Hrate].
Qed.

Lemma beats_stay_inside_the_measure_witness :
  exists s' b0 b1,
    step 4 1.45 (TimerFires 3) demo_playing = Some (s', [b0; b1])
    /\ is_Some (b_speech b1)
    /\ Forall (fun b =>
                 (0 <= b_index b < beatsPerMeasure s')%Z
                 /\ forall u, b_speech b = Some u ->
                      (1 <= u_number u <= beatsPerMeasure s')%Z
                      /\ u_rate u = 2) [b0; b1].
Proof.
  assert (E : exists s' b0 b1,
             step 4 1.45 (TimerFires 3) demo_playing = Some (s', [b0; b1])
             /\ is_Some (b_speech b1)).
  { eexists _, _, _. split; [vm_compute; reflexivity|]. eexists. reflexivity. }
  destruct E as (s' & b0 & b1 & E & Sp). exists s', b0, b1.
  split; [exact E|]. split; [exact Sp|].
  exact (beats_stay_inside_the_measure 4 1.45 (TimerFires 3) demo_playing
           s' [b0; b1] demo_playing_reachable I E).
Defined.
